(** * HuffZip: a shallow embedding of [main.cpp] and the properties of its codec

    The development follows the source file top to bottom: the node type and
    the two [std::map]s, [buildFrequencyTable], [buildHuffmanTree],
    [generateHuffmanCodes], then the two file-level procedures
    [compressFile] and [decompressFile] with the stream operations they use.

    Conventions of the embedding.
    - [char] is an 8-bit character ([ascii]); it is signed, as on the
      targets the README compiles for ([g++]), so [static_cast<int>] yields
      a value in [-128, 127] and [std::map<char, _>] iterates in that order.
    - [std::string] is a list of [char]; the bit strings built by the code are
      strings of the characters '0' and '1', exactly as in the source.
    - [int] is a 32-bit two's-complement integer, held as the [Z] in
      [INT_MIN .. INT_MAX]: each addition the source makes on [int]s is
      followed by [wrap_int].  Signed overflow is undefined in C++; wrapping
      is what the compiler of the README does, and every property that reads
      a count as a number carries the range hypothesis under which no
      addition overflows.  Formatted extraction of an [int] from a stream
      checks the range, as [operator>>] does.
    - a pointer to a node is [option HuffmanNode]; dereferencing [nullptr]
      and calling [top()] on an empty queue are undefined and show up as
      [Undefined] results.
    - files are byte buffers handed in and out; the console messages are
      part of the result so that "reports success" can be stated.  The
      procedures on named files and [main] come last, over a file system in
      which a name may lead to no file and two names to the same file. *)

From Stdlib Require Import List ZArith Lia Bool Ascii String Permutation.
Import ListNotations.
Local Open Scope Z_scope.

(** ** Characters and strings *)

Abbreviation char := ascii.

(** [std::string]. *)
Abbreviation str := (list ascii).

(** The sentinel ['\0'] and the two bit characters. *)
Definition NUL : char := "000"%char.
Definition c0 : char := "0"%char.
Definition c1 : char := "1"%char.

(** [static_cast<int>(c)] for a signed 8-bit [char]. *)
Definition char_to_int (c : char) : Z :=
  let n := Z.of_N (N_of_ascii c) in
  if n <? 128 then n else n - 256.

(** [static_cast<char>(z)]: the low eight bits. *)
Definition int_to_char (z : Z) : char :=
  ascii_of_N (Z.to_N (z mod 256)).

Definition char_eqb (a b : char) : bool := Ascii.eqb a b.

(** ** [std::map<char, V>]

    An ordered map: the entries are kept in ascending key order, which is the
    order in which the source iterates over it (leaf creation, header
    output, frequency sum). *)
Module CharMap.

Definition t (V : Type) := list (char * V).

Definition empty {V : Type} : t V := [].

(** [m.find(k)], as an option. *)
Fixpoint find {V : Type} (k : char) (m : t V) : option V :=
  match m with
  | [] => None
  | (k', v) :: m' => if char_eqb k k' then Some v else find k m'
  end.

(** [m[k] = v]: overwrite the entry of [k] or insert it at its place. *)
Fixpoint set {V : Type} (k : char) (v : V) (m : t V) : t V :=
  match m with
  | [] => [(k, v)]
  | (k', v') :: m' =>
      if char_eqb k k' then (k, v) :: m'
      else if char_to_int k <? char_to_int k' then (k, v) :: (k', v') :: m'
      else (k', v') :: set k v m'
  end.

(** [m[k]] read as an rvalue: a missing key is first inserted with the
    value-initialised [dflt]. The value and the map after the access. *)
Definition subscript {V : Type} (dflt : V) (k : char) (m : t V) : V * t V :=
  match find k m with
  | Some v => (v, m)
  | None => (dflt, set k dflt m)
  end.

Definition keys {V : Type} (m : t V) : list char := map fst m.

Definition size {V : Type} (m : t V) : nat := List.length m.

(** The representation invariant: strictly ascending keys. *)
Inductive sorted {V : Type} : t V -> Prop :=
| sorted_nil : sorted []
| sorted_cons k v m :
    Forall (fun e => char_to_int k < char_to_int (fst e)) m ->
    sorted m -> sorted ((k, v) :: m).

End CharMap.

(** ** The tree node

    [struct HuffmanNode { char data; int freq; HuffmanNode *left, *right; }] *)
#[local] Unset Elimination Schemes.
Inductive HuffmanNode : Type :=
  mkNode { data : char;
           freq : Z;
           left : option HuffmanNode;
           right : option HuffmanNode }.
#[local] Set Elimination Schemes.

(** The constructor [HuffmanNode(data, freq)]: both children null. *)
Definition newNode (d : char) (f : Z) : HuffmanNode := mkNode d f None None.

(** The decoder's leaf test: [left == nullptr && right == nullptr]. *)
Definition is_leaf (n : HuffmanNode) : bool :=
  match left n, right n with
  | None, None => true
  | _, _ => false
  end.

(** ** [int] *)

Definition INT_MIN : Z := -2147483648.
Definition INT_MAX : Z := 2147483647.

(** The [int] that is congruent to [z] modulo 2^32. *)
Definition wrap_int (z : Z) : Z := (z - INT_MIN) mod 4294967296 + INT_MIN.

(** [a + b] on two [int]s. *)
Definition int_add (a b : Z) : Z := wrap_int (a + b).

(** ** [buildFrequencyTable] *)

(** [freqTable[c]++]: a missing key starts from the value-initialised 0. *)
Definition increment (c : char) (freqTable : CharMap.t Z) : CharMap.t Z :=
  let (v, m) := CharMap.subscript 0 c freqTable in
  CharMap.set c (int_add v 1) m.

Definition buildFrequencyTable (content : str) : CharMap.t Z :=
  fold_left (fun freqTable c => increment c freqTable) content CharMap.empty.

(** ** [std::priority_queue<HuffmanNode*, vector<HuffmanNode*>, NodeComparator>]

    The queue is library code, not part of the repository: it is taken as an
    interface with the guarantees of the C++ standard.  Which of several
    equal-weight nodes [top()] returns is left to the implementation, so every
    result below holds for any conforming queue. *)

(** [NodeComparator::operator()]. *)
Definition NodeComparator (l r : HuffmanNode) : bool := freq l >? freq r.

Class PriorityQueue : Type := {
  pq : Type;
  pq_empty : pq;
  pq_push : HuffmanNode -> pq -> pq;
  (** [top()]; undefined on an empty queue, hence the option *)
  pq_top : pq -> option HuffmanNode;
  pq_pop : pq -> pq;
  pq_size : pq -> nat;
  (** the nodes held, in some order (specification only) *)
  pq_elements : pq -> list HuffmanNode;
  pq_size_spec : forall q, pq_size q = List.length (pq_elements q);
  pq_empty_spec : pq_elements pq_empty = [];
  pq_push_spec : forall x q,
      Permutation (pq_elements (pq_push x q)) (x :: pq_elements q);
  pq_top_spec : forall q,
      match pq_top q with
      | Some x =>
          Permutation (pq_elements q) (x :: pq_elements (pq_pop q)) /\
          Forall (fun y => NodeComparator x y = false) (pq_elements q)
      | None => pq_elements q = []
      end
}.

Section Codec.

Context {Q : PriorityQueue}.

(** ** [buildHuffmanTree] *)

(** The first loop: one leaf per table entry, in key order. *)
Definition pushLeaves (freqTable : CharMap.t Z) : pq :=
  fold_left (fun minHeap pair => pq_push (newNode (fst pair) (snd pair)) minHeap)
            freqTable pq_empty.

(** The [while (minHeap.size() > 1)] loop and the final [top()].  Each
    round shrinks the queue by one, so [fuel] rounds are enough for a queue
    of [fuel + 1] nodes.  [None] stands for undefined behaviour ([top()] of
    an empty queue) or for exhausted fuel. *)
Fixpoint combineNodes (fuel : nat) (minHeap : pq) : option HuffmanNode :=
  if (pq_size minHeap <=? 1)%nat then pq_top minHeap
  else
    match fuel with
    | O => None
    | S fuel' =>
        match pq_top minHeap with
        | None => None
        | Some l =>
            let h1 := pq_pop minHeap in
            match pq_top h1 with
            | None => None
            | Some r =>
                let h2 := pq_pop h1 in
                let internalNode :=
                  mkNode NUL (int_add (freq l) (freq r)) (Some l) (Some r) in
                combineNodes fuel' (pq_push internalNode h2)
            end
        end
    end.

Definition buildHuffmanTree (freqTable : CharMap.t Z) : option HuffmanNode :=
  let minHeap := pushLeaves freqTable in
  combineNodes (pq_size minHeap) minHeap.

End Codec.

(** ** [generateHuffmanCodes]

    The recursion on a non-null node; the [if (!root) return;] of the
    source is the [None] branch taken at each child. *)
Fixpoint generateHuffmanCodes_node (root : HuffmanNode) (code : str)
    (huffmanCodes : CharMap.t str) : CharMap.t str :=
  let m0 :=
    if char_eqb (data root) NUL then huffmanCodes
    else CharMap.set (data root) code huffmanCodes in
  let m1 :=
    match left root with
    | None => m0
    | Some l => generateHuffmanCodes_node l (code ++ [c0]) m0
    end in
  match right root with
  | None => m1
  | Some r => generateHuffmanCodes_node r (code ++ [c1]) m1
  end.

Definition generateHuffmanCodes (root : option HuffmanNode) (code : str)
    (huffmanCodes : CharMap.t str) : CharMap.t str :=
  match root with
  | None => huffmanCodes
  | Some n => generateHuffmanCodes_node n code huffmanCodes
  end.

(** ** Stream operations used by the two procedures *)

Definition digit_char (d : Z) : char := ascii_of_N (Z.to_N (48 + d)).

(** The decimal digits of [n >= 0], most significant first, put in front of
    [acc]; a number below [2 ^ (fuel + 1)] has at most [fuel + 1] digits. *)
Fixpoint digits (fuel : nat) (n : Z) (acc : str) : str :=
  let acc' := digit_char (n mod 10) :: acc in
  match fuel with
  | O => acc'
  | S fuel' => if n / 10 =? 0 then acc' else digits fuel' (n / 10) acc'
  end.

(** [out << n] for an unsigned [n] ([size_t]). *)
Definition print_unsigned (n : Z) : str := digits (Z.to_nat (Z.log2 n)) n [].

(** [out << z] for an [int]. *)
Definition print_int (z : Z) : str :=
  if z <? 0 then "-"%char :: print_unsigned (- z) else print_unsigned z.

(** [std::isspace] and [std::isdigit] in the "C" locale. *)
Definition isspace (c : char) : bool :=
  let n := N_of_ascii c in ((n =? 32) || ((9 <=? n) && (n <=? 13)))%N.

Definition isdigit (c : char) : bool :=
  let n := N_of_ascii c in ((48 <=? n) && (n <=? 57))%N.

Definition digit_value (c : char) : Z := Z.of_N (N_of_ascii c) - 48.

Fixpoint skip_ws (s : str) : str :=
  match s with
  | c :: s' => if isspace c then skip_ws s' else s
  | [] => []
  end.

Fixpoint read_digits (s : str) (acc : Z) : Z * str :=
  match s with
  | c :: s' =>
      if isdigit c then read_digits s' (10 * acc + digit_value c) else (acc, s)
  | [] => (acc, [])
  end.

(** [in >> x] for an [int x]: leading white space is skipped, then an
    optional sign and the longest run of digits are consumed.  The value read
    and the rest of the stream; [None] when the extraction fails (no digit,
    or a value outside [int]) and sets [failbit]. *)
Definition read_int (s : str) : option (Z * str) :=
  let s1 := skip_ws s in
  let '(neg, s2) :=
    match s1 with
    | c :: r =>
        if char_eqb c "-"%char then (true, r)
        else if char_eqb c "+"%char then (false, r)
        else (false, s1)
    | [] => (false, [])
    end in
  match s2 with
  | c :: _ =>
      if isdigit c then
        let (v, rest) := read_digits s2 0 in
        let x := if neg then - v else v in
        if (INT_MIN <=? x) && (x <=? INT_MAX) then Some (x, rest) else None
      else None
  | [] => None
  end.

(** What [in >> x] leaves in [x] (C++11, the standard of the README).
    [None]: the stream is at its end once the white space is skipped, the
    sentry fails and [x] is not written.  Otherwise [x] is written: with 0
    when no number is found, with the nearest [int] when the number is out
    of range (in both cases [failbit] is set), with the number read when it
    is in range. *)
Definition read_int_stored (s : str) : option Z :=
  match skip_ws s with
  | [] => None
  | c :: r =>
      let '(neg, s2) :=
        if char_eqb c "-"%char then (true, r)
        else if char_eqb c "+"%char then (false, r)
        else (false, c :: r) in
      match s2 with
      | d :: _ =>
          if isdigit d then
            let (v, _) := read_digits s2 0 in
            let x := if neg then - v else v in
            Some (if x <? INT_MIN then INT_MIN
                  else if INT_MAX <? x then INT_MAX else x)
          else Some 0
      | [] => Some 0
      end
  end.

(** [in.ignore()]: drop one character. *)
Definition ignore (s : str) : str := tl s.

(** [s.substr(pos, n)]. *)
Definition substr (s : str) (pos n : nat) : str := firstn n (skipn pos s).

(** [bitset<8>(s).to_ulong()] for a string of at most eight characters: the
    string read as a binary numeral, first character most significant.
    [None] is the [std::invalid_argument] thrown on a character other than
    '0' and '1'. *)
Fixpoint bitset_of_string (s : str) (acc : Z) : option Z :=
  match s with
  | [] => Some acc
  | c :: s' =>
      if char_eqb c c0 then bitset_of_string s' (2 * acc)
      else if char_eqb c c1 then bitset_of_string s' (2 * acc + 1)
      else None
  end.

(** [bitset<8>(byte).to_string()]: bit 7 first. *)
Definition bitset_to_string (byte : char) : str :=
  map (fun i => if N.testbit (N_of_ascii byte) i then c1 else c0)
      [7; 6; 5; 4; 3; 2; 1; 0]%N.

(** ** Results of the two procedures

    The console message and, when the output file was opened, its contents. *)
Inductive message : Type :=
| FileIsEmpty               (* "Error: File is empty!" on [cerr] *)
| CompressionSuccessful     (* "Compression successful!" *)
| DecompressionSuccessful.  (* "Decompression successful! Saved as: ..." *)

Inductive outcome : Type :=
| Failed (m : message)              (* returned before opening the output *)
| Saved (file : str) (m : message)  (* output written and closed *)
| Undefined.                        (* undefined behaviour was reached *)

(** ** [compressFile] *)

(** One header line:
    [outFile << static_cast<int>(pair.first) << ' ' << pair.second << '\n'] *)
Definition writeEntry (pair : ascii * Z) : str :=
  print_int (char_to_int (fst pair)) ++ [" "%char] ++
  print_int (snd pair) ++ ["010"%char].

(** The header: the table size, then one line per entry. *)
Definition writeHeader (freqTable : CharMap.t Z) : str :=
  print_unsigned (Z.of_nat (CharMap.size freqTable)) ++ ["010"%char] ++
  flat_map writeEntry freqTable.

(** [for (char c : content) encoded += huffmanCodes[c];] with the map that
    [operator[]] may extend threaded through. *)
Definition encodeStep (st : str * CharMap.t str) (c : char)
    : str * CharMap.t str :=
  let (code, m) := CharMap.subscript [] c (snd st) in
  (fst st ++ code, m).

Definition encodeContent (content : str) (huffmanCodes : CharMap.t str) : str :=
  fst (fold_left encodeStep content ([], huffmanCodes)).

Definition addPadding (encoded : str) : str :=
  let padding := 8 - Z.of_nat (List.length encoded) mod 8 in
  if negb (padding =? 8) then encoded ++ repeat c0 (Z.to_nat padding)
  else encoded.

(** The output loop [for (i = 0; i < encoded.length(); i += 8)]: one byte
    per group of eight characters. *)
Fixpoint putBytes (encoded : str) (starts : list nat) : option str :=
  match starts with
  | [] => Some []
  | i :: starts' =>
      match bitset_of_string (substr encoded i 8) 0 with
      | None => None
      | Some bits =>
          match putBytes encoded starts' with
          | None => None
          | Some rest => Some (int_to_char bits :: rest)
          end
      end
  end.

Definition writeBits (encoded : str) : option str :=
  putBytes encoded
    (map (fun k => 8 * k)%nat (seq 0 ((List.length encoded + 7) / 8)%nat)).

(** ** [decompressFile]: the decoding loop *)

(** [for (char bit : encoded)] with the cursor [current], the counter
    [decodedCount] and the characters put so far returned in order.  [None]:
    a member of a null [current] was read. *)
Fixpoint decodeLoop (huffmanTree current : HuffmanNode) (encoded : str)
    (decodedCount totalChars : Z) : option str :=
  match encoded with
  | [] => Some []
  | bit :: rest =>
      match (if char_eqb bit c0 then left current else right current) with
      | None => None
      | Some next =>
          if is_leaf next then
            let decodedCount' := int_add decodedCount 1 in
            if decodedCount' =? totalChars then Some [data next]
            else
              option_map (cons (data next))
                (decodeLoop huffmanTree huffmanTree rest decodedCount' totalChars)
          else decodeLoop huffmanTree next rest decodedCount totalChars
      end
  end.

(** The header loop: [n] lines [charValue freq].  The table and what is
    left of the stream for [inFile.get].

    When [inFile >> charValue] fails, [freq] is not written and its
    indeterminate value is read in the assignment: [None].  When
    [charValue] is read and [inFile >> freq] fails, [freq] holds what the
    failed extraction stored, if it stored anything; [failbit] is set, so an
    iteration that follows is the previous case, and after the last
    iteration nothing more is read from the stream: the payload is empty. *)
Fixpoint readTable (n : nat) (s : str) (freqTable : CharMap.t Z)
    : option (CharMap.t Z * str) :=
  match n with
  | O => Some (freqTable, s)
  | S n' =>
      match read_int s with
      | None => None
      | Some (charValue, s1) =>
          match read_int s1 with
          | Some (f, s2) =>
              readTable n' (ignore s2)
                (CharMap.set (int_to_char charValue) f freqTable)
          | None =>
              match read_int_stored s1, n' with
              | Some f, O =>
                  Some (CharMap.set (int_to_char charValue) f freqTable, [])
              | _, _ => None
              end
          end
      end
  end.

(** [inFile >> tableSize; inFile.ignore();] and the header loop.  When the
    extraction of [tableSize] fails, either nothing is stored, or 0 or
    [INT_MIN] (then the table stays empty and [top()] is called on an empty
    queue), or [INT_MAX] (then the loop reads indeterminate values): [None]
    in every case. *)
Definition readHeader (file : str) : option (CharMap.t Z * str) :=
  match read_int file with
  | None => None
  | Some (tableSize, s) => readTable (Z.to_nat tableSize) (ignore s) CharMap.empty
  end.

(** [for (auto& pair : freqTable) totalChars += pair.second;] *)
Definition totalChars (freqTable : CharMap.t Z) : Z :=
  fold_left (fun total pair => int_add total (snd pair)) freqTable 0.

Section Procedures.

Context {Q : PriorityQueue}.

Definition compressFile (content : str) : outcome :=
  match content with
  | [] => Failed FileIsEmpty
  | _ =>
      let freqTable := buildFrequencyTable content in
      match buildHuffmanTree freqTable with
      | None => Undefined
      | Some huffmanTree =>
          let huffmanCodes :=
            generateHuffmanCodes (Some huffmanTree) [] CharMap.empty in
          let header := writeHeader freqTable in
          let encoded := addPadding (encodeContent content huffmanCodes) in
          match writeBits encoded with
          | None => Undefined
          | Some payload => Saved (header ++ payload) CompressionSuccessful
          end
      end
  end.

(** Everything after the header has been read: rebuild the tree, sum the
    frequencies, decode. *)
Definition decodePayload (freqTable : CharMap.t Z) (payload : str) : outcome :=
  let encoded := flat_map bitset_to_string payload in
  match buildHuffmanTree freqTable with
  | None => Undefined
  | Some huffmanTree =>
      match decodeLoop huffmanTree huffmanTree encoded 0 (totalChars freqTable) with
      | None => Undefined
      | Some out => Saved out DecompressionSuccessful
      end
  end.

Definition decompressFile (file : str) : outcome :=
  match readHeader file with
  | None => Undefined
  | Some (freqTable, payload) => decodePayload freqTable payload
  end.

End Procedures.

(** ** The procedures on named files, and [main]

    [compressFile] and [decompressFile] as the source declares them, on an
    input and an output file name, and [main], which reads the choice and the
    two names from standard input.

    The file system is the part of the environment the streams reach.  A
    name leads to a file or to none ([file_of]: none for a name that no
    stream can open, such as a path through a missing directory; two names
    may lead to one file).  A file holds bytes or does not exist yet
    ([held]); it is or is not open to reading and to writing ([readable],
    [writable]: a file that is not writable keeps what it holds, like a
    directory or a protected file, whether or not the stream opens); and it
    may open for reading without giving bytes ([read_fails]: a directory
    with the [g++] library on Linux, where the first read throws
    [std::ios_failure] out of the stream buffer).  A writable file opened
    for writing is created or truncated and takes all that is written before
    [close()]; devices that fill up are not modelled.  The source never
    tests its [ofstream]: when it does not open, nothing is written and the
    run goes on.

    Of the console output the result keeps the last message; the banner,
    the menu and the prompts are the same in every run and are left out.
    [None] stands for a run that reaches undefined behaviour. *)
Module OnFiles.

Record fileSystem : Type := mkFS {
  file_of : str -> option nat;
  held : nat -> option str;
  readable : nat -> bool;
  writable : nat -> bool;
  read_fails : nat -> bool }.

(** What becomes of an [ifstream] and of reading all it holds. *)
Inductive opened : Type :=
| NotOpened               (* [!inFile] *)
| ReadError               (* the stream is open, reading fails *)
| Opened (content : str).

(** The file a stream is opened on.  The empty name, which is what a failed
    [cin >> name] leaves, opens nothing. *)
Definition lookup (fs : fileSystem) (name : str) : option nat :=
  match name with
  | [] => None
  | _ => file_of fs name
  end.

(** [ifstream inFile(name, ios::binary)] and, if it opened, all it holds. *)
Definition open_in (fs : fileSystem) (name : str) : opened :=
  match lookup fs name with
  | Some f =>
      if readable fs f then
        if read_fails fs f then ReadError
        else match held fs f with
             | Some content => Opened content
             | None => NotOpened
             end
      else NotOpened
  | None => NotOpened
  end.

(** [ofstream outFile(name, ios::binary)], the writes and [close()]. *)
Definition write_out (fs : fileSystem) (name data : str) : fileSystem :=
  match lookup fs name with
  | Some f =>
      if writable fs f then
        mkFS (file_of fs)
             (fun g => if (g =? f)%nat then Some data else held fs g)
             (readable fs) (writable fs) (read_fails fs)
      else fs
  | None => fs
  end.

Inductive report : Type :=
| Exiting                (* "Exiting..." *)
| InvalidChoice          (* "Invalid choice!" on [cerr] *)
| CannotOpenInput        (* "Error: Cannot open input file!" on [cerr] *)
| Terminated             (* [std::terminate] on an exception nobody catches *)
| Told (m : message).    (* what the procedure on the content tells *)

Section Files.

Context {Q : PriorityQueue}.

(** When reading fails, the exception leaves the [istreambuf_iterator]s
    that fill [content], and [main] with them. *)
Definition compressFile (fs : fileSystem) (inputFile outputFile : str)
    : option (fileSystem * report) :=
  match open_in fs inputFile with
  | NotOpened => Some (fs, CannotOpenInput)
  | ReadError => Some (fs, Terminated)
  | Opened content =>
      match compressFile content with
      | Failed m => Some (fs, Told m)
      | Saved file m => Some (write_out fs outputFile file, Told m)
      | Undefined => None
      end
  end.

(** When reading fails, [inFile >> tableSize] catches the exception, sets
    [badbit] and stores nothing: [tableSize] is read without a value. *)
Definition decompressFile (fs : fileSystem) (inputFile outputFile : str)
    : option (fileSystem * report) :=
  match open_in fs inputFile with
  | NotOpened => Some (fs, CannotOpenInput)
  | ReadError => None
  | Opened file =>
      match decompressFile file with
      | Failed m => Some (fs, Told m)
      | Saved out m => Some (write_out fs outputFile out, Told m)
      | Undefined => None
      end
  end.

(** The characters up to the next white space, and the rest. *)
Fixpoint take_word (s : str) : str * str :=
  match s with
  | c :: s' =>
      if isspace c then ([], s)
      else let (w, r) := take_word s' in (c :: w, r)
  | [] => ([], [])
  end.

(** [cin >> name] for a [std::string]: white space is skipped and a word
    is taken.  The stream is [None] once an extraction has failed; then,
    and at the end of the input, the name is left empty. *)
Definition read_word (s : option str) : str * option str :=
  match s with
  | None => ([], None)
  | Some s =>
      match take_word (skip_ws s) with
      | ([], _) => ([], None)
      | (w, r) => (w, Some r)
      end
  end.

(** [main] from the test [choice == 3] on, with the value of [choice] and
    the state of [cin] after [cin >> choice]. *)
Definition dispatch (fs : fileSystem) (choice : Z) (s : option str)
    : option (fileSystem * report) :=
  if choice =? 3 then Some (fs, Exiting)
  else
    let (inputFile, s1) := read_word s in
    let (outputFile, _) := read_word s1 in
    if choice =? 1 then compressFile fs inputFile outputFile
    else if choice =? 2 then decompressFile fs inputFile outputFile
    else Some (fs, InvalidChoice).

(** [main].  When [cin >> choice] fails, [choice] holds what the failed
    extraction stored and [cin] is in the failed state; when it stored
    nothing (empty or blank input) the test [choice == 3] reads an
    indeterminate value. *)
Definition main (fs : fileSystem) (stdin : str) : option (fileSystem * report) :=
  match read_int stdin with
  | Some (choice, s) => dispatch fs choice (Some s)
  | None =>
      match read_int_stored stdin with
      | Some choice => dispatch fs choice None
      | None => None
      end
  end.

End Files.

End OnFiles.

(** * Specification vocabulary

    Definitions that belong to no source function: the words in which the
    properties below are stated, and the concrete data they are run on. *)

(** The sum of the values of a table, entry by entry. *)
Definition sum_values (m : CharMap.t Z) : Z :=
  fold_right (fun p acc => snd p + acc) 0 m.

(** Occurrences of [c] in [content], as an [int]. *)
Definition occurrences (c : char) (content : str) : Z :=
  Z.of_nat (count_occ ascii_dec content c).

(** What the table holds once the characters of [seen] have been counted:
    an entry for each character met, with its number of occurrences as an
    [int]; the entries add up to the number of characters as long as that
    number is an [int]. *)
Definition counts (seen : str) (m : CharMap.t Z) : Prop :=
  CharMap.sorted m /\
  (Z.of_nat (List.length seen) <= INT_MAX ->
   sum_values m = Z.of_nat (List.length seen)) /\
  forall c, CharMap.find c m =
            if occurrences c seen =? 0 then None
            else Some (wrap_int (occurrences c seen)).

(** A node as the builder makes them: a leaf has no child, an internal node
    carries the sentinel ['\0'] and two children, themselves such nodes. *)
Inductive huffman_tree : HuffmanNode -> Prop :=
| ht_leaf d f : huffman_tree (mkNode d f None None)
| ht_internal f l r :
    huffman_tree l -> huffman_tree r ->
    huffman_tree (mkNode NUL f (Some l) (Some r)).

(** [subnode n t]: [n] is [t] or lies below it. *)
Inductive subnode : HuffmanNode -> HuffmanNode -> Prop :=
| sub_refl t : subnode t t
| sub_left n t l : left t = Some l -> subnode n l -> subnode n t
| sub_right n t r : right t = Some r -> subnode n r -> subnode n t.

(** A property of a node behind a nullable pointer. *)
Definition option_all (P : HuffmanNode -> Prop) (o : option HuffmanNode) : Prop :=
  match o with
  | Some x => P x
  | None => True
  end.

(** The leaves of a tree, left to right, as table entries. *)
Fixpoint leaves (t : HuffmanNode) : list (ascii * Z) :=
  match t with
  | mkNode d f None None => [(d, f)]
  | mkNode _ _ l r =>
      match l with Some x => leaves x | None => [] end ++
      match r with Some x => leaves x | None => [] end
  end.

(** The leaves with the path that leads to each: '0' for left, '1' for
    right. *)
Fixpoint codewords (t : HuffmanNode) : list (ascii * list ascii) :=
  match t with
  | mkNode d _ None None => [(d, [])]
  | mkNode _ _ l r =>
      match l with
      | Some x => map (fun e => (fst e, c0 :: snd e)) (codewords x)
      | None => []
      end ++
      match r with
      | Some x => map (fun e => (fst e, c1 :: snd e)) (codewords x)
      | None => []
      end
  end.

Definition is_prefix (p q : str) : Prop := exists r, q = p ++ r.

Section Forest.

Context {Q : PriorityQueue}.

(** The queue holds well-formed trees whose leaves are the table entries. *)
Definition forest_of (entries : list (ascii * Z)) (q : pq) : Prop :=
  Forall huffman_tree (pq_elements q) /\
  Permutation (flat_map leaves (pq_elements q)) entries.

End Forest.

(** [huffmanCodes[c]] as the encoding loop reads it. *)
Definition codeOf (huffmanCodes : CharMap.t (list ascii)) (c : char) : str :=
  fst (CharMap.subscript [] c huffmanCodes).

(** The characters of a bit string. *)
Definition is_bit (c : char) : Prop := c = c0 \/ c = c1.

Definition bit_of_bool (b : bool) : ascii := if b then c1 else c0.

(** The padding appended by [addPadding], in characters. *)
Definition paddingOf (n : nat) : nat :=
  match (n mod 8)%nat with
  | O => O
  | r => (8 - r)%nat
  end.

(** The symbols met when all of [encoded] is walked, without a stop
    condition: what the bits hold. *)
Fixpoint walkAll (root current : HuffmanNode) (encoded : str) : list ascii :=
  match encoded with
  | [] => []
  | bit :: rest =>
      match (if char_eqb bit c0 then left current else right current) with
      | None => []
      | Some next =>
          if is_leaf next then data next :: walkAll root root rest
          else walkAll root next rest
      end
  end.

(** The value of a digit string read after [acc]. *)
Definition horner (acc : Z) (ds : str) : Z :=
  fold_left (fun a c => 10 * a + digit_value c) ds acc.

Definition all_digits (ds : str) : Prop := Forall (fun c => isdigit c = true) ds.

(** The minimum search of the queue the procedures are run with (see
    [listQueue] below): the first node of least weight and the others. *)
Fixpoint extract_min (l : list HuffmanNode) : option (HuffmanNode * list HuffmanNode) :=
  match l with
  | [] => None
  | x :: l' =>
      match extract_min l' with
      | None => Some (x, [])
      | Some (y, r) =>
          if NodeComparator x y then Some (y, x :: r) else Some (x, l')
      end
  end.

(** A line of header text. *)
Definition line (s : string) : list ascii :=
  list_ascii_of_string s ++ ["010"%char].


(** A table without ties. *)
Definition abc_table : CharMap.t Z :=
  [("A"%char, 1); ("B"%char, 2); ("C"%char, 4)].

(** A table of [int]s that add up to 2^32 + 2: [totalChars] is 2, and the
    first node combined, of 'C' and 'B', weighs 5 - 2^31. *)
Definition overflow_table : CharMap.t Z :=
  [("A"%char, 2147483647); ("B"%char, 2147483646); ("C"%char, 5)].

(** Split a conjunction into its parts, leaving the equations untouched for
    [vm_compute]. *)
Ltac split_all :=
  cbv zeta; repeat match goal with |- _ /\ _ => split end.

(** A table whose header lines can be printed and read back: keys
    ascending, as in a [std::map], and values that are [int]s. *)
Definition int_table (m : CharMap.t Z) : Prop :=
  CharMap.sorted m /\ Forall (fun e => INT_MIN <= snd e <= INT_MAX) m.

(** Every node with children weighs what its children weigh together, as
    an [int]. *)
Inductive weighted : HuffmanNode -> Prop :=
| w_leaf d f : weighted (mkNode d f None None)
| w_internal d f l r :
    weighted l -> weighted r -> f = int_add (freq l) (freq r) ->
    weighted (mkNode d f (Some l) (Some r)).

(** The values of a table are [int]s. *)
Definition int_values (m : CharMap.t Z) : Prop :=
  Forall (fun e => INT_MIN <= snd e <= INT_MAX) m.

(** The number of leaves after which the counter, incremented from
    [decodedCount] at each leaf, equals [totalChars]: their difference when
    the counter is below, else the way round through [INT_MAX]. *)
Definition stop_after (decodedCount totalChars : Z) : nat :=
  Z.to_nat ((totalChars - decodedCount - 1) mod 4294967296 + 1).

(** The bytes other than 0x00. *)
Definition not_NUL (c : char) : bool := negb (char_eqb c NUL).

(** A file name as [cin >> name] reads one: not empty, no white space. *)
Definition is_word (w : str) : Prop :=
  w <> [] /\ Forall (fun c => isspace c = false) w.

(** What is typed at the three prompts of [main], a line each. *)
Definition session (choice : Z) (inputFile outputFile : str) : list ascii :=
  print_int choice ++ ["010"%char] ++ inputFile ++ ["010"%char] ++
  outputFile ++ ["010"%char].

Definition name_eqb (a : str) (b : string) : bool :=
  if list_eq_dec ascii_dec a (list_ascii_of_string b) then true else false.

(** A directory with two files.  The first holds [content] and is reached
    as "in.txt" and as "./in.txt"; the second, "out.huf", does not exist
    yet.  "/" is the directory: it opens for reading, but no byte can be
    read from it, and nothing can be written to it.  No other name
    opens. *)
Definition two_files (content : str) : OnFiles.fileSystem :=
  OnFiles.mkFS
    (fun name =>
       if name_eqb name "in.txt" then Some 1%nat
       else if name_eqb name "./in.txt" then Some 1%nat
       else if name_eqb name "out.huf" then Some 2%nat
       else if name_eqb name "/" then Some 0%nat
       else None)
    (fun f => match f with
              | 1%nat => Some content
              | _ => None
              end)
    (fun _ => true)
    (fun f => negb (f =? 0)%nat)
    (fun f => (f =? 0)%nat).

(** The sum over a table of frequency times [f] of the symbol. *)
Definition table_sum (f : ascii -> Z) (m : CharMap.t Z) : Z :=
  fold_right (fun e acc => snd e * f (fst e) + acc) 0 m.

(** The sum of [f] over the bytes of a buffer. *)
Definition sum_over (f : ascii -> Z) (content : str) : Z :=
  fold_right (fun c acc => f c + acc) 0 content.

(** The length of the code the encoder appends for [c]. *)
Definition code_length (huffmanCodes : CharMap.t (list ascii)) (c : char) : Z :=
  Z.of_nat (List.length (codeOf huffmanCodes c)).

(** * Properties *)

(** ** Characters *)

Lemma char_eqb_eq (a b : char) : char_eqb a b = true <-> a = b.
Proof. apply Ascii.eqb_eq. Qed.

Lemma char_eqb_neq (a b : char) : char_eqb a b = false <-> a <> b.
Proof. apply Ascii.eqb_neq. Qed.

Lemma char_eqb_refl (a : char) : char_eqb a a = true.
Proof. apply Ascii.eqb_refl. Qed.

Lemma N_of_ascii_bound (c : char) : (N_of_ascii c < 256)%N.
Proof. apply N_ascii_bounded. Qed.

Lemma char_to_int_range (c : char) : -128 <= char_to_int c <= 127.
Proof.
  unfold char_to_int; cbv zeta. pose proof (N_of_ascii_bound c).
  destruct (Z.ltb_spec (Z.of_N (N_of_ascii c)) 128); lia.
Qed.

Lemma char_to_int_inj (a b : char) : char_to_int a = char_to_int b -> a = b.
Proof.
  unfold char_to_int; cbv zeta. intros H.
  pose proof (N_of_ascii_bound a). pose proof (N_of_ascii_bound b).
  assert (N_of_ascii a = N_of_ascii b).
  { destruct (Z.ltb_spec (Z.of_N (N_of_ascii a)) 128),
             (Z.ltb_spec (Z.of_N (N_of_ascii b)) 128); lia. }
  rewrite <- (ascii_N_embedding a), <- (ascii_N_embedding b). congruence.
Qed.

Lemma int_to_char_to_int (c : char) : int_to_char (char_to_int c) = c.
Proof.
  unfold int_to_char, char_to_int; cbv zeta. pose proof (N_of_ascii_bound c).
  etransitivity; [|apply ascii_N_embedding]. f_equal.
  destruct (Z.ltb_spec (Z.of_N (N_of_ascii c)) 128).
  - rewrite Z.mod_small by lia. apply N2Z.id.
  - replace (Z.of_N (N_of_ascii c) - 256) with (Z.of_N (N_of_ascii c) + (-1) * 256) by lia.
    rewrite Z.mod_add by lia. rewrite Z.mod_small by lia. apply N2Z.id.
Qed.

(** ** [int] arithmetic *)

Lemma wrap_int_range (z : Z) : INT_MIN <= wrap_int z <= INT_MAX.
Proof.
  unfold wrap_int, INT_MIN, INT_MAX.
  pose proof (Z.mod_pos_bound (z - -2147483648) 4294967296 ltac:(lia)). lia.
Qed.

Lemma wrap_int_eq (z : Z) : exists q, wrap_int z = z - 4294967296 * q.
Proof.
  exists ((z - INT_MIN) / 4294967296). unfold wrap_int.
  rewrite Z.mod_eq by lia. lia.
Qed.

Lemma wrap_int_small (z : Z) : INT_MIN <= z <= INT_MAX -> wrap_int z = z.
Proof.
  unfold wrap_int, INT_MIN, INT_MAX. intros H.
  rewrite Z.mod_small by lia. lia.
Qed.

(** Two [int]s that differ by a multiple of 2^32 are equal. *)
Lemma int_congruent (a b q : Z) :
  INT_MIN <= a <= INT_MAX -> INT_MIN <= b <= INT_MAX ->
  a = b + 4294967296 * q -> a = b.
Proof. unfold INT_MIN, INT_MAX. intros Ha Hb E. assert (q = 0) by lia. lia. Qed.

Lemma wrap_int_congruent (a b q : Z) :
  a = b + 4294967296 * q -> wrap_int a = wrap_int b.
Proof.
  intros E. destruct (wrap_int_eq a) as [qa Ea]. destruct (wrap_int_eq b) as [qb Eb].
  apply (int_congruent _ _ (q - qa + qb)); try apply wrap_int_range. lia.
Qed.

Lemma wrap_int_add_l (a b : Z) : wrap_int (wrap_int a + b) = wrap_int (a + b).
Proof.
  destruct (wrap_int_eq a) as [q E]. apply (wrap_int_congruent _ _ (- q)). lia.
Qed.

Lemma wrap_int_add_r (a b : Z) : wrap_int (a + wrap_int b) = wrap_int (a + b).
Proof.
  destruct (wrap_int_eq b) as [q E]. apply (wrap_int_congruent _ _ (- q)). lia.
Qed.

Lemma int_add_small (a b : Z) : INT_MIN <= a + b <= INT_MAX -> int_add a b = a + b.
Proof. apply wrap_int_small. Qed.

(** ** The ordered map *)

Module CharMapFacts.
Import CharMap.

Section Facts.
Context {V : Type}.
Implicit Types (m : t V) (k : char) (v : V).

Lemma find_set_eq k v m : find k (set k v m) = Some v.
Proof.
  induction m as [|[k' v'] m IH]; simpl.
  - now rewrite char_eqb_refl.
  - destruct (char_eqb k k') eqn:E; simpl.
    + now rewrite char_eqb_refl.
    + destruct (char_to_int k <? char_to_int k'); simpl.
      * now rewrite char_eqb_refl.
      * now rewrite E.
Qed.

Lemma find_set_neq k k' v m : k <> k' -> find k' (set k v m) = find k' m.
Proof.
  intros Hne. induction m as [|[k0 v0] m IH]; simpl.
  - apply not_eq_sym, char_eqb_neq in Hne. now rewrite Hne.
  - destruct (char_eqb k k0) eqn:E; simpl.
    + apply char_eqb_eq in E. subst k0.
      apply not_eq_sym, char_eqb_neq in Hne. now rewrite Hne.
    + destruct (char_to_int k <? char_to_int k0); simpl.
      * apply not_eq_sym, char_eqb_neq in Hne. now rewrite Hne.
      * destruct (char_eqb k' k0); auto.
Qed.

Lemma find_Some_In k v m : find k m = Some v -> In (k, v) m.
Proof.
  induction m as [|[k' v'] m IH]; simpl; [discriminate|].
  destruct (char_eqb k k') eqn:E.
  - apply char_eqb_eq in E. intros [= ->]. subst. now left.
  - auto.
Qed.

Lemma find_None_keys k m : find k m = None <-> ~ In k (keys m).
Proof.
  induction m as [|[k' v'] m IH]; simpl.
  - tauto.
  - destruct (char_eqb k k') eqn:E.
    + apply char_eqb_eq in E. subst. split; [discriminate|]. tauto.
    + apply char_eqb_neq in E. rewrite IH. split.
      * intros H [H1|H1]; [congruence | tauto].
      * tauto.
Qed.

Lemma keys_set k v m k' : In k' (keys (set k v m)) <-> k' = k \/ In k' (keys m).
Proof.
  induction m as [|[k0 v0] m IH]; simpl.
  - intuition.
  - destruct (char_eqb k k0) eqn:E; simpl.
    + apply char_eqb_eq in E. subst. intuition.
    + destruct (char_to_int k <? char_to_int k0); simpl.
      * intuition.
      * rewrite IH. intuition.
Qed.

Lemma In_set k v m e : In e (set k v m) -> e = (k, v) \/ In e m.
Proof.
  induction m as [|[k0 v0] m IH]; simpl.
  - intuition.
  - destruct (char_eqb k k0) eqn:E; simpl.
    + intuition.
    + destruct (char_to_int k <? char_to_int k0); simpl; intuition.
Qed.

Lemma sorted_set k v m : sorted m -> sorted (set k v m).
Proof.
  induction 1 as [|k0 v0 m Hall Hs IH]; simpl.
  - constructor; [constructor | constructor].
  - destruct (char_eqb k k0) eqn:E.
    + apply char_eqb_eq in E. subst. now constructor.
    + destruct (Z.ltb_spec (char_to_int k) (char_to_int k0)).
      * constructor; [|now constructor].
        constructor; [assumption|].
        eapply Forall_impl; [|exact Hall]. simpl. intros; lia.
      * apply char_eqb_neq in E.
        assert (char_to_int k0 < char_to_int k).
        { destruct (Z.eq_dec (char_to_int k) (char_to_int k0)) as [e|]; [|lia].
          apply char_to_int_inj in e. contradiction. }
        constructor; [|assumption].
        apply Forall_forall. intros e He. apply In_set in He.
        destruct He as [->|He]; [assumption|].
        rewrite Forall_forall in Hall. auto.
Qed.

Lemma sorted_NoDup m : sorted m -> NoDup (keys m).
Proof.
  induction 1 as [|k0 v0 m Hall Hs IH]; simpl; constructor; [|assumption].
  intros Hin. apply in_map_iff in Hin. destruct Hin as [e [He Hin]].
  rewrite Forall_forall in Hall. specialize (Hall e Hin). subst. lia.
Qed.

Lemma sorted_head_find k k0 v0 m :
  sorted ((k0, v0) :: m) -> char_to_int k < char_to_int k0 ->
  find k ((k0, v0) :: m) = None.
Proof.
  intros Hs Hlt. apply find_None_keys. inversion Hs; subst. simpl.
  intros [->|Hin]; [lia|].
  apply in_map_iff in Hin. destruct Hin as [e [He Hin]].
  match goal with H : Forall _ m |- _ => rewrite Forall_forall in H; specialize (H e Hin) end.
  subst. lia.
Qed.

End Facts.

Lemma sum_values_cons e (m : t Z) : sum_values (e :: m) = snd e + sum_values m.
Proof. reflexivity. Qed.

Lemma sum_values_set k v (m : t Z) :
  sorted m ->
  sum_values (set k v m) =
  sum_values m - match find k m with Some old => old | None => 0 end + v.
Proof.
  intros Hs. induction Hs as [|k0 v0 m Hall Hs IH].
  - simpl. lia.
  - assert (Hs' : sorted ((k0, v0) :: m)) by now constructor.
    cbn [set]. destruct (char_eqb k k0) eqn:E.
    + cbn [find]. rewrite E, !sum_values_cons. simpl. lia.
    + destruct (Z.ltb_spec (char_to_int k) (char_to_int k0)).
      * rewrite (sorted_head_find k k0 v0 m Hs') by assumption.
        rewrite !sum_values_cons. simpl. lia.
      * cbn [find]. rewrite E, !sum_values_cons, IH. simpl. lia.
Qed.

End CharMapFacts.

(** ** [buildFrequencyTable] *)

Section FrequencyTable.
Import CharMap CharMapFacts.

Lemma find_increment_eq c m :
  find c (increment c m) =
  Some (int_add (match find c m with Some v => v | None => 0 end) 1).
Proof.
  unfold increment, subscript. destruct (find c m); apply find_set_eq.
Qed.

Lemma find_increment_neq c c' m : c <> c' -> find c' (increment c m) = find c' m.
Proof.
  intros Hne. unfold increment, subscript. destruct (find c m).
  - now apply find_set_neq.
  - now rewrite !find_set_neq.
Qed.

Lemma sorted_increment c m : sorted m -> sorted (increment c m).
Proof.
  intros Hs. unfold increment, subscript.
  destruct (find c m); repeat apply sorted_set; assumption.
Qed.

Lemma sum_values_increment c m :
  sorted m ->
  sum_values (increment c m) =
  sum_values m - match find c m with Some v => v | None => 0 end
  + int_add (match find c m with Some v => v | None => 0 end) 1.
Proof.
  intros Hs. unfold increment, subscript. destruct (find c m) eqn:E.
  - rewrite sum_values_set, E by assumption. lia.
  - rewrite sum_values_set by now apply sorted_set.
    rewrite find_set_eq, sum_values_set, E by assumption. lia.
Qed.

Lemma occurrences_length c seen :
  0 <= occurrences c seen <= Z.of_nat (List.length seen).
Proof.
  unfold occurrences. pose proof (count_occ_bound ascii_dec c seen). lia.
Qed.

Lemma counts_empty : counts [] empty.
Proof. repeat split. constructor. Qed.

Lemma counts_step seen m c : counts seen m -> counts (seen ++ [c]) (increment c m).
Proof.
  intros (Hs & Hsum & Hfind). split; [|split].
  - now apply sorted_increment.
  - rewrite length_app. cbn [List.length]. intros Hlen.
    rewrite sum_values_increment, Hsum, Hfind by (assumption || lia).
    pose proof (occurrences_length c seen) as Ho.
    destruct (Z.eqb_spec (occurrences c seen) 0).
    + rewrite int_add_small by (unfold INT_MIN, INT_MAX; lia). lia.
    + rewrite (wrap_int_small (occurrences c seen))
        by (unfold INT_MIN, INT_MAX in *; lia).
      rewrite int_add_small by (unfold INT_MIN, INT_MAX in *; lia). lia.
  - intros c'. unfold occurrences. rewrite count_occ_app. simpl.
    destruct (ascii_dec c c') as [->|Hne].
    + rewrite find_increment_eq, Hfind. unfold occurrences, int_add.
      destruct (Z.eqb_spec (Z.of_nat (count_occ ascii_dec seen c')) 0) as [e|e];
        destruct (Z.eqb_spec (Z.of_nat (count_occ ascii_dec seen c' + 1)) 0);
        try lia; f_equal.
      * f_equal. lia.
      * rewrite wrap_int_add_l. f_equal. lia.
    + rewrite find_increment_neq, Hfind by assumption. unfold occurrences.
      now rewrite Nat.add_0_r.
Qed.

Lemma counts_fold content : forall seen m,
  counts seen m ->
  counts (seen ++ content)
         (fold_left (fun freqTable c => increment c freqTable) content m).
Proof.
  induction content as [|c content IH]; intros seen m H; simpl.
  - now rewrite app_nil_r.
  - replace (seen ++ c :: content) with ((seen ++ [c]) ++ content)
      by now rewrite <- app_assoc.
    apply IH. now apply counts_step.
Qed.

Lemma buildFrequencyTable_counts content :
  counts content (buildFrequencyTable content).
Proof. exact (counts_fold content [] empty counts_empty). Qed.

Lemma sorted_In_find {V : Type} k (v : V) m : sorted m -> In (k, v) m -> find k m = Some v.
Proof.
  induction 1 as [|k0 v0 m Hall Hs IH]; simpl; [tauto|].
  intros [[= -> ->]|Hin].
  - now rewrite char_eqb_refl.
  - destruct (char_eqb k k0) eqn:E; [|auto].
    apply char_eqb_eq in E. subst k0.
    rewrite Forall_forall in Hall. specialize (Hall _ Hin). simpl in Hall. lia.
Qed.

Lemma totalChars_from (m : t Z) : forall a,
  fold_left (fun total pair => int_add total (snd pair)) m (wrap_int a) =
  wrap_int (a + sum_values m).
Proof.
  induction m as [|e m IH]; intros a; cbn [fold_left].
  - unfold sum_values. simpl. now rewrite Z.add_0_r.
  - unfold int_add at 2. rewrite wrap_int_add_l, IH, sum_values_cons.
    f_equal. lia.
Qed.

(** The sum [decompressFile] computes is the sum of the values, as an
    [int]. *)
Lemma totalChars_wrap (m : t Z) : totalChars m = wrap_int (sum_values m).
Proof. unfold totalChars. exact (totalChars_from m 0). Qed.

Lemma totalChars_sum (m : t Z) :
  INT_MIN <= sum_values m <= INT_MAX -> totalChars m = sum_values m.
Proof. intros H. rewrite totalChars_wrap. now apply wrap_int_small. Qed.

Lemma totalChars_range (m : t Z) : INT_MIN <= totalChars m <= INT_MAX.
Proof. rewrite totalChars_wrap. apply wrap_int_range. Qed.

Lemma occurrences_pos c content : occurrences c content <> 0 <-> In c content.
Proof.
  unfold occurrences. rewrite (count_occ_In ascii_dec). lia.
Qed.

Lemma buildFrequencyTable_keys (content : str) (c : char) :
  In c (keys (buildFrequencyTable content)) <-> In c content.
Proof.
  destruct (buildFrequencyTable_counts content) as (Hs & Hsum & Hfind). split.
  - intros Hin. apply occurrences_pos. intros Hz.
    specialize (Hfind c). rewrite Hz in Hfind. simpl in Hfind.
    apply find_None_keys in Hfind. contradiction.
  - intros Hin. apply occurrences_pos in Hin.
    destruct (find c (buildFrequencyTable content)) eqn:E.
    + apply find_Some_In in E. apply in_map_iff. now exists (c, z).
    + rewrite Hfind in E.
      destruct (Z.eqb_spec (occurrences c content) 0); [contradiction|discriminate].
Qed.

Lemma buildFrequencyTable_NoDup (content : str) :
  NoDup (keys (buildFrequencyTable content)).
Proof. apply sorted_NoDup, buildFrequencyTable_counts. Qed.

Lemma buildFrequencyTable_values (content : str) :
  Z.of_nat (List.length content) <= INT_MAX ->
  Forall (fun pair => 0 < snd pair /\ snd pair = occurrences (fst pair) content)
         (buildFrequencyTable content).
Proof.
  intros Hlen.
  destruct (buildFrequencyTable_counts content) as (Hs & Hsum & Hfind).
  apply Forall_forall. intros [k v] Hin. simpl.
  apply (sorted_In_find k v _ Hs) in Hin. rewrite Hfind in Hin.
  pose proof (occurrences_length k content) as Ho.
  destruct (Z.eqb_spec (occurrences k content) 0); [discriminate|].
  injection Hin as <-.
  rewrite wrap_int_small by (unfold INT_MIN, INT_MAX in *; lia).
  split; [lia|reflexivity].
Qed.

Lemma buildFrequencyTable_total (content : str) :
  Z.of_nat (List.length content) <= INT_MAX ->
  totalChars (buildFrequencyTable content) = Z.of_nat (List.length content).
Proof.
  intros Hlen.
  destruct (buildFrequencyTable_counts content) as (Hs & Hsum & Hfind).
  rewrite totalChars_sum; rewrite Hsum by assumption;
    [reflexivity|unfold INT_MIN, INT_MAX in *; lia].
Qed.


End FrequencyTable.

(** ** The trees [buildHuffmanTree] returns *)

Lemma leaves_nonempty t : huffman_tree t -> leaves t <> [].
Proof.
  induction 1 as [d f|f l r Hl IHl Hr IHr]; simpl; [discriminate|].
  destruct (leaves l); [contradiction|discriminate].
Qed.

Lemma leaves_single_is_leaf t :
  huffman_tree t -> (List.length (leaves t) <= 1)%nat -> is_leaf t = true.
Proof.
  destruct 1 as [d f|f l r Hl Hr]; simpl; [reflexivity|].
  rewrite length_app. intros Hlen.
  apply leaves_nonempty in Hl, Hr.
  destruct (leaves l), (leaves r); simpl in *; try contradiction; lia.
Qed.

Lemma codewords_keys t : huffman_tree t -> map fst (codewords t) = map fst (leaves t).
Proof.
  induction 1 as [d f|f l r Hl IHl Hr IHr]; simpl; [reflexivity|].
  rewrite !map_app, !map_map. simpl.
  f_equal; [rewrite <- IHl | rewrite <- IHr]; apply map_ext; reflexivity.
Qed.

Section TreeBuilder.

Context {Q : PriorityQueue}.

Lemma pq_top_empty (q : pq) : pq_elements q = [] -> pq_top q = None.
Proof.
  intros He. pose proof (pq_top_spec q) as H.
  destruct (pq_top q); [|reflexivity].
  destruct H as [H _]. rewrite He in H. now apply Permutation_nil in H.
Qed.

Lemma pq_top_nonempty (q : pq) :
  pq_elements q <> [] ->
  exists x, pq_top q = Some x /\ Permutation (pq_elements q) (x :: pq_elements (pq_pop q)).
Proof.
  intros Hne. pose proof (pq_top_spec q) as H.
  destruct (pq_top q) as [x|]; [|contradiction].
  exists x. split; [reflexivity|apply H].
Qed.

Lemma pushLeaves_elements (freqTable : CharMap.t Z) : forall q,
  Permutation
    (pq_elements
       (fold_left (fun minHeap pair => pq_push (newNode (fst pair) (snd pair)) minHeap)
                  freqTable q))
    (map (fun pair => newNode (fst pair) (snd pair)) freqTable ++ pq_elements q).
Proof.
  induction freqTable as [|e m IH]; intros q; simpl.
  - reflexivity.
  - rewrite IH. rewrite pq_push_spec. symmetry. apply Permutation_middle.
Qed.

Lemma forest_pushLeaves (freqTable : CharMap.t Z) :
  forest_of freqTable (pushLeaves freqTable) /\
  pq_size (pushLeaves freqTable) = List.length freqTable.
Proof.
  unfold forest_of, pushLeaves.
  pose proof (pushLeaves_elements freqTable pq_empty) as HP.
  rewrite pq_empty_spec, app_nil_r in HP.
  repeat split.
  - eapply Permutation_Forall; [symmetry; exact HP|].
    apply Forall_forall. intros t Ht. apply in_map_iff in Ht.
    destruct Ht as [e [<- _]]. constructor.
  - rewrite HP. clear HP.
    induction freqTable as [|[k v] m IH]; simpl; [reflexivity|].
    now constructor.
  - rewrite pq_size_spec, (Permutation_length HP). apply length_map.
Qed.

Lemma combineNodes_spec entries : forall fuel (q : pq),
  (pq_size q <= S fuel)%nat -> pq_elements q <> [] -> forest_of entries q ->
  exists t, combineNodes fuel q = Some t /\ huffman_tree t /\
            Permutation (leaves t) entries.
Proof.
  induction fuel as [|fuel IH]; intros q Hsize Hne [Hwf Hleaves].
  - destruct (pq_top_nonempty q Hne) as (x & Htop & Hperm).
    simpl. rewrite pq_size_spec in Hsize.
    destruct (Nat.leb_spec (pq_size q) 1) as [_|Hgt];
      [|rewrite pq_size_spec in Hgt; lia].
    exists x. split; [assumption|].
    rewrite (Permutation_length Hperm) in Hsize. simpl in Hsize.
    destruct (pq_elements (pq_pop q)) as [|y ys]; [|simpl in Hsize; lia].
    split.
    + eapply Permutation_Forall in Hwf; [|exact Hperm]. now inversion Hwf.
    + rewrite <- Hleaves, Hperm. simpl. now rewrite app_nil_r.
  - destruct (pq_top_nonempty q Hne) as (x & Htop & Hperm).
    cbn [combineNodes].
    destruct (Nat.leb_spec (pq_size q) 1) as [Hle|Hgt].
    + exists x. split; [assumption|].
      rewrite pq_size_spec, (Permutation_length Hperm) in Hle. simpl in Hle.
      destruct (pq_elements (pq_pop q)) as [|y ys]; [|simpl in Hle; lia].
      split.
      * eapply Permutation_Forall in Hwf; [|exact Hperm]. now inversion Hwf.
      * rewrite <- Hleaves, Hperm. simpl. now rewrite app_nil_r.
    + rewrite Htop.
      assert (Hne1 : pq_elements (pq_pop q) <> []).
      { rewrite pq_size_spec, (Permutation_length Hperm) in Hgt. simpl in Hgt.
        destruct (pq_elements (pq_pop q)); [simpl in Hgt; lia|discriminate]. }
      destruct (pq_top_nonempty _ Hne1) as (y & Htop1 & Hperm1).
      rewrite Htop1.
      assert (Hall : Permutation (pq_elements q)
                       (x :: y :: pq_elements (pq_pop (pq_pop q)))).
      { rewrite Hperm. now constructor. }
      eapply Permutation_Forall in Hwf; [|exact Hall].
      inversion Hwf as [|? ? Hx Hwf1]; subst.
      inversion Hwf1 as [|? ? Hy Hwf2]; subst.
      apply IH.
      * rewrite pq_size_spec, (Permutation_length (pq_push_spec _ _)).
        rewrite pq_size_spec, (Permutation_length Hall) in Hsize.
        simpl in *. lia.
      * intros He. pose proof (pq_push_spec (mkNode NUL (int_add (freq x) (freq y)) (Some x) (Some y))
                                 (pq_pop (pq_pop q))) as HP.
        rewrite He in HP. now apply Permutation_nil in HP.
      * split.
        -- eapply Permutation_Forall; [symmetry; apply pq_push_spec|].
           constructor; [now constructor|assumption].
        -- rewrite pq_push_spec. rewrite <- Hleaves, Hall. simpl.
           now rewrite app_assoc.
Qed.

(** [buildHuffmanTree] returns for every non-empty table: a well-formed
    tree whose leaves are exactly the entries of the table. *)
Lemma buildHuffmanTree_spec (freqTable : CharMap.t Z) :
  freqTable <> [] ->
  exists t, buildHuffmanTree freqTable = Some t /\ huffman_tree t /\
            Permutation (leaves t) freqTable.
Proof.
  intros Hne. unfold buildHuffmanTree.
  destruct (forest_pushLeaves freqTable) as [Hf Hsize].
  apply combineNodes_spec.
  - lia.
  - intros He. rewrite pq_size_spec, He in Hsize.
    destruct freqTable; [contradiction|discriminate].
  - assumption.
Qed.

(** On a table with one entry the loop does not run: the tree is the one
    leaf. *)
Lemma buildHuffmanTree_single (c : char) (v : Z) :
  buildHuffmanTree [(c, v)] = Some (newNode c v).
Proof.
  destruct (buildHuffmanTree_spec [(c, v)]) as (root & Hb & Ht & Hp); [discriminate|].
  rewrite Hb. f_equal. destruct Ht as [d f|f l r Hl Hr].
  - simpl in Hp. apply Permutation_length_1 in Hp. now injection Hp as -> ->.
  - apply Permutation_length in Hp. simpl in Hp. rewrite length_app in Hp.
    apply leaves_nonempty in Hl, Hr.
    destruct (leaves l), (leaves r); simpl in *; try contradiction; lia.
Qed.

(** On the empty table the builder calls [top()] on an empty queue. *)
Lemma buildHuffmanTree_empty : buildHuffmanTree [] = None.
Proof.
  assert (Hz : pq_size pq_empty = 0%nat)
    by (rewrite pq_size_spec, pq_empty_spec; reflexivity).
  unfold buildHuffmanTree, pushLeaves. simpl.
  rewrite Hz. simpl. rewrite Hz. simpl.
  apply pq_top_empty, pq_empty_spec.
Qed.

Lemma buildHuffmanTree_root_internal (freqTable : CharMap.t Z) t :
  (2 <= CharMap.size freqTable)%nat ->
  huffman_tree t -> Permutation (leaves t) freqTable ->
  is_leaf t = false /\ data t = NUL.
Proof.
  intros Hsize Ht Hperm. apply Permutation_length in Hperm.
  unfold CharMap.size in Hsize. destruct Ht as [d f|f l r Hl Hr].
  - simpl in Hperm. lia.
  - split; reflexivity.
Qed.

(** X4. [buildHuffmanTree] is total on non-empty tables.  On the empty table
    it takes [top()] of an empty queue; on a non-empty one the loop ends
    within the rounds allotted and returns a tree, well formed, whose leaves
    are exactly the table entries, and which is a single leaf exactly when
    the table has one entry. *)
Theorem buildHuffmanTree_total (freqTable : CharMap.t Z) :
  (freqTable = [] -> buildHuffmanTree freqTable = None) /\
  (freqTable <> [] ->
   exists root,
     buildHuffmanTree freqTable = Some root /\
     huffman_tree root /\
     Permutation (leaves root) freqTable /\
     (is_leaf root = true <-> CharMap.size freqTable = 1%nat)).
Proof.
  split.
  - intros ->. apply buildHuffmanTree_empty.
  - intros Hne.
    destruct (buildHuffmanTree_spec freqTable Hne) as (root & Hb & Ht & Hp).
    exists root. repeat split; try assumption.
    + intros Hleaf. apply Permutation_length in Hp. unfold CharMap.size.
      destruct Ht as [d f|f l r Hl Hr]; [now rewrite <- Hp|discriminate].
    + intros Hsize. apply leaves_single_is_leaf; [assumption|].
      apply Permutation_length in Hp. unfold CharMap.size in Hsize. lia.
Qed.

End TreeBuilder.

(** ** A conforming queue

    The simplest queue that meets the interface, used to run the procedures
    on concrete buffers: a vector searched for its first minimum.  The
    buffers on which a failure is shown by evaluation never put two nodes of
    equal weight in the queue, so every conforming queue builds the same
    trees on them. *)

Lemma NodeComparator_false x y : NodeComparator x y = false <-> freq x <= freq y.
Proof. unfold NodeComparator. rewrite Z.gtb_ltb, Z.ltb_ge. reflexivity. Qed.

Lemma extract_min_spec l :
  match extract_min l with
  | Some (x, r) =>
      Permutation l (x :: r) /\ Forall (fun y => NodeComparator x y = false) l
  | None => l = []
  end.
Proof.
  induction l as [|x l IH]; simpl; [reflexivity|].
  destruct (extract_min l) as [[y r]|].
  - destruct IH as [HP HF]. destruct (NodeComparator x y) eqn:E.
    + split.
      * rewrite HP. apply perm_swap.
      * constructor; [|assumption].
        apply NodeComparator_false. unfold NodeComparator in E.
        rewrite Z.gtb_ltb, Z.ltb_lt in E. lia.
    + split; [reflexivity|].
      apply NodeComparator_false in E.
      constructor; [apply NodeComparator_false; lia|].
      eapply Forall_impl; [|exact HF]. intros z Hz.
      apply NodeComparator_false in Hz. apply NodeComparator_false. lia.
  - subst l. split; [reflexivity|].
    constructor; [apply NodeComparator_false; lia|constructor].
Qed.

Lemma listQueue_push_spec (x : HuffmanNode) (q : list HuffmanNode) :
  Permutation (q ++ [x]) (x :: q).
Proof. symmetry. apply Permutation_cons_append. Qed.

Lemma listQueue_top_spec (q : list HuffmanNode) :
  match option_map fst (extract_min q) with
  | Some x =>
      Permutation q (x :: match extract_min q with Some (_, r) => r | None => [] end) /\
      Forall (fun y => NodeComparator x y = false) q
  | None => q = []
  end.
Proof.
  pose proof (extract_min_spec q) as H.
  destruct (extract_min q) as [[x r]|]; simpl; assumption.
Qed.

Definition listQueue : PriorityQueue :=
  {| pq := list HuffmanNode;
     pq_empty := [];
     pq_push := fun x q => q ++ [x];
     pq_top := fun q => option_map fst (extract_min q);
     pq_pop := fun q => match extract_min q with Some (_, r) => r | None => [] end;
     pq_size := @List.length HuffmanNode;
     pq_elements := fun q => q;
     pq_size_spec := fun q => eq_refl;
     pq_empty_spec := eq_refl;
     pq_push_spec := listQueue_push_spec;
     pq_top_spec := listQueue_top_spec |}.

(** ** [generateHuffmanCodes] *)

(** Induction over nodes with nullable children. *)
Lemma HuffmanNode_ind (P : HuffmanNode -> Prop) :
  (forall d f l r, option_all P l -> option_all P r -> P (mkNode d f l r)) ->
  forall t, P t.
Proof.
  intros H. fix IH 1. intros [d f l r]. apply H.
  - destruct l as [x|]; simpl; [apply IH|exact I].
  - destruct r as [x|]; simpl; [apply IH|exact I].
Qed.

Section CodeTable.
Import CharMap CharMapFacts.

(** The sentinel never gets an entry, whatever the tree. *)
Lemma generateHuffmanCodes_node_NUL t : forall code m,
  find NUL (generateHuffmanCodes_node t code m) = find NUL m.
Proof.
  induction t as [d f l r IHl IHr] using HuffmanNode_ind. intros code m.
  cbn [generateHuffmanCodes_node data left right].
  assert (H0 : find NUL (if char_eqb d NUL then m else set d code m) = find NUL m).
  { destruct (char_eqb d NUL) eqn:E; [reflexivity|].
    apply char_eqb_neq in E. now apply find_set_neq. }
  destruct l as [x|], r as [y|]; simpl in IHl, IHr;
    rewrite ?IHr, ?IHl; exact H0.
Qed.

Lemma generateHuffmanCodes_node_inv t :
  huffman_tree t -> forall code m c p,
  find c (generateHuffmanCodes_node t code m) = Some p ->
  find c m = Some p \/
  (c <> NUL /\ exists q, In (c, q) (codewords t) /\ p = code ++ q).
Proof.
  induction 1 as [d f|f l r Hl IHl Hr IHr]; intros code m c p;
    cbn [generateHuffmanCodes_node data left right codewords].
  - destruct (char_eqb d NUL) eqn:E; [now left|].
    apply char_eqb_neq in E. destruct (ascii_dec d c) as [->|Hne].
    + rewrite find_set_eq. intros [= <-]. right. split; [assumption|].
      exists []. split; [now left|now rewrite app_nil_r].
    + rewrite find_set_neq by assumption. now left.
  - rewrite char_eqb_refl. intros H.
    apply IHr in H. destruct H as [H|(Hc & q & Hin & ->)].
    + apply IHl in H. destruct H as [H|(Hc & q & Hin & ->)]; [now left|].
      right. split; [assumption|]. exists (c0 :: q). split.
      * apply in_or_app. left. apply in_map_iff. now exists (c, q).
      * now rewrite <- app_assoc.
    + right. split; [assumption|]. exists (c1 :: q). split.
      * apply in_or_app. right. apply in_map_iff. now exists (c, q).
      * now rewrite <- app_assoc.
Qed.

Lemma generateHuffmanCodes_node_other t :
  huffman_tree t -> forall code m c,
  ~ In c (map fst (codewords t)) ->
  find c (generateHuffmanCodes_node t code m) = find c m.
Proof.
  induction 1 as [d f|f l r Hl IHl Hr IHr]; intros code m c;
    cbn [generateHuffmanCodes_node data left right codewords].
  - simpl. intros Hnot. destruct (char_eqb d NUL); [reflexivity|].
    apply find_set_neq. tauto.
  - rewrite char_eqb_refl, map_app, !map_map. simpl. intros Hnot.
    rewrite IHr, IHl; [reflexivity| |].
    + intros Hin. apply Hnot, in_or_app. left.
      erewrite map_ext; [exact Hin|reflexivity].
    + intros Hin. apply Hnot, in_or_app. right.
      erewrite map_ext; [exact Hin|reflexivity].
Qed.

(** With pairwise distinct leaf symbols, every leaf other than the sentinel
    gets its path as code. *)
Lemma generateHuffmanCodes_node_leaf t :
  huffman_tree t -> forall code m c q,
  NoDup (map fst (codewords t)) -> In (c, q) (codewords t) -> c <> NUL ->
  find c (generateHuffmanCodes_node t code m) = Some (code ++ q).
Proof.
  induction 1 as [d f|f l r Hl IHl Hr IHr]; intros code m c q;
    cbn [generateHuffmanCodes_node data left right codewords].
  - intros _ [[= -> <-]|[]] Hc. apply char_eqb_neq in Hc. rewrite Hc.
    rewrite app_nil_r. apply find_set_eq.
  - rewrite char_eqb_refl, map_app, !map_map. simpl. intros Hnd Hin Hc.
    assert (El : map (fun x : ascii * list ascii => fst x) (codewords l)
                 = map fst (codewords l)) by (apply map_ext; reflexivity).
    assert (Er : map (fun x : ascii * list ascii => fst x) (codewords r)
                 = map fst (codewords r)) by (apply map_ext; reflexivity).
    rewrite El, Er in Hnd.
    apply in_app_or in Hin. destruct Hin as [Hin|Hin];
      apply in_map_iff in Hin; destruct Hin as [[c' q'] [[= -> <-] Hin]].
    + rewrite generateHuffmanCodes_node_other; [| assumption |].
      * rewrite (IHl _ _ c q'); [now rewrite <- app_assoc| |assumption..].
        now apply NoDup_app_remove_r in Hnd.
      * intros Hin'. apply (in_map fst) in Hin. simpl in Hin.
        revert Hin Hin'. clear - Hnd. revert Hnd.
        generalize (map fst (codewords l)) (map fst (codewords r)).
        intros xs ys Hnd Hx Hy.
        apply NoDup_app_remove_l in Hnd as Hys.
        induction xs as [|x xs IH]; [contradiction|].
        simpl in Hnd. inversion Hnd; subst. destruct Hx as [->|Hx].
        -- match goal with H : ~ In _ (_ ++ _) |- _ => apply H end.
           apply in_or_app. now right.
        -- now apply IH.
    + rewrite (IHr _ _ c q'); [now rewrite <- app_assoc| |assumption..].
      now apply NoDup_app_remove_l in Hnd.
Qed.

(** Two leaves never lie on one path: the codewords of a tree are
    prefix-free. *)
Lemma codewords_prefix_free t :
  huffman_tree t -> forall a p b q,
  In (a, p) (codewords t) -> In (b, q) (codewords t) -> is_prefix p q ->
  a = b /\ p = q.
Proof.
  induction 1 as [d f|f l r Hl IHl Hr IHr]; intros a p b q; cbn [codewords].
  - intros [[= <- <-]|[]] [[= <- <-]|[]] _. now split.
  - intros Hp Hq [s Hs].
    apply in_app_or in Hp. apply in_app_or in Hq.
    destruct Hp as [Hp|Hp], Hq as [Hq|Hq];
      apply in_map_iff in Hp; destruct Hp as [[a' p'] [[= -> <-] Hp]];
      apply in_map_iff in Hq; destruct Hq as [[b' q'] [[= -> <-] Hq]];
      simpl in Hs; injection Hs as Hs; try discriminate.
    + destruct (IHl a p' b q' Hp Hq) as [-> ->]; [now exists s|now split].
    + destruct (IHr a p' b q' Hp Hq) as [-> ->]; [now exists s|now split].
Qed.

(** Entries are never removed. *)
Lemma generateHuffmanCodes_node_keeps t : forall code m c,
  find c m <> None -> find c (generateHuffmanCodes_node t code m) <> None.
Proof.
  induction t as [d f l r IHl IHr] using HuffmanNode_ind. intros code m c Hc.
  cbn [generateHuffmanCodes_node data left right].
  assert (H0 : find c (if char_eqb d NUL then m else set d code m) <> None).
  { destruct (char_eqb d NUL); [assumption|].
    destruct (ascii_dec d c) as [->|Hne].
    - rewrite find_set_eq. discriminate.
    - now rewrite find_set_neq. }
  destruct l as [x|], r as [y|]; simpl in IHl, IHr.
  - apply IHr, IHl, H0.
  - apply IHl, H0.
  - apply IHr, H0.
  - exact H0.
Qed.

(** Every leaf symbol other than the sentinel gets an entry. *)
Lemma generateHuffmanCodes_node_covers t :
  huffman_tree t -> forall code m c,
  In c (map fst (codewords t)) -> c <> NUL ->
  find c (generateHuffmanCodes_node t code m) <> None.
Proof.
  induction 1 as [d f|f l r Hl IHl Hr IHr]; intros code m c;
    cbn [generateHuffmanCodes_node data left right codewords].
  - simpl. intros [->|[]] Hc. apply char_eqb_neq in Hc. rewrite Hc.
    rewrite find_set_eq. discriminate.
  - rewrite char_eqb_refl, map_app, !map_map. simpl. intros Hin Hc.
    apply in_app_or in Hin. destruct Hin as [Hin|Hin].
    + apply generateHuffmanCodes_node_keeps. apply IHl; [|assumption].
      erewrite map_ext; [exact Hin|reflexivity].
    + apply IHr; [|assumption].
      erewrite map_ext; [exact Hin|reflexivity].
Qed.

End CodeTable.

(** ** The encoder's lookups *)

Lemma codeOf_find m c :
  codeOf m c = match CharMap.find c m with Some code => code | None => [] end.
Proof. unfold codeOf, CharMap.subscript. now destruct (CharMap.find c m). Qed.

Lemma codeOf_subscript m c c' :
  codeOf (snd (CharMap.subscript [] c m)) c' = codeOf m c'.
Proof.
  rewrite !codeOf_find. unfold CharMap.subscript.
  destruct (CharMap.find c m) eqn:E; simpl; [reflexivity|].
  destruct (ascii_dec c c') as [<-|Hne].
  - now rewrite CharMapFacts.find_set_eq, E.
  - now rewrite CharMapFacts.find_set_neq.
Qed.

Lemma encodeContent_from content : forall acc m m',
  (forall c, codeOf m' c = codeOf m c) ->
  fst (fold_left encodeStep content (acc, m')) = acc ++ flat_map (codeOf m) content.
Proof.
  induction content as [|c content IH]; intros acc m m' Hm; simpl.
  - now rewrite app_nil_r.
  - unfold encodeStep at 2. simpl.
    destruct (CharMap.subscript [] c m') as [code m''] eqn:E.
    rewrite (IH _ m).
    + rewrite <- app_assoc. do 2 f_equal.
      rewrite <- Hm. unfold codeOf. now rewrite E.
    + intros c'. rewrite <- Hm.
      replace m'' with (snd (CharMap.subscript [] c m')) by now rewrite E.
      apply codeOf_subscript.
Qed.

(** The encoded string is the concatenation of the looked-up codes; the
    entries [operator[]] adds on the way are empty and change nothing. *)
Lemma encodeContent_flat_map content m :
  encodeContent content m = flat_map (codeOf m) content.
Proof. unfold encodeContent. now rewrite (encodeContent_from content [] m m). Qed.

(** ** Nodes of a tree and the decoder's cursor *)

Lemma subnode_huffman_tree n t : subnode n t -> huffman_tree t -> huffman_tree n.
Proof.
  induction 1 as [t|n t l Hl Hsub IH|n t r Hr Hsub IH]; intros Ht; [assumption| |];
    destruct Ht as [d f|f a b Ha Hb]; simpl in *; try discriminate;
    apply IH; congruence.
Qed.

Lemma internal_children n :
  huffman_tree n -> is_leaf n = false ->
  data n = NUL /\ exists l r, left n = Some l /\ right n = Some r /\
                               huffman_tree l /\ huffman_tree r.
Proof.
  destruct 1 as [d f|f l r Hl Hr]; simpl; [discriminate|].
  intros _. split; [reflexivity|]. now exists l, r.
Qed.

Lemma decodeLoop_defined root :
  huffman_tree root -> is_leaf root = false ->
  forall encoded current decodedCount total,
  huffman_tree current -> is_leaf current = false ->
  decodeLoop root current encoded decodedCount total <> None.
Proof.
  intros Hroot Hint. induction encoded as [|bit rest IH];
    intros current decodedCount total Hcur Hcint; cbn [decodeLoop];
    [discriminate|].
  destruct (internal_children current Hcur Hcint) as (_ & l & r & -> & -> & Hl & Hr).
  assert (Hn : exists next,
             (if char_eqb bit c0 then Some l else Some r) = Some next /\
             huffman_tree next)
    by (destruct (char_eqb bit c0); eauto).
  destruct Hn as (next & -> & Hnext).
  destruct (is_leaf next) eqn:E.
  - cbv zeta. destruct (int_add decodedCount 1 =? total); [discriminate|].
    specialize (IH root (int_add decodedCount 1) total Hroot Hint).
    destruct (decodeLoop root root rest (int_add decodedCount 1) total);
      [discriminate|contradiction].
  - now apply IH.
Qed.

Section TreeClaims.

Context {Q : PriorityQueue}.

(** C9. For every frequency table with at least two symbols,
    [buildHuffmanTree] returns a tree whose root is internal and in which
    every node that is not a leaf has two non-null children (and carries the
    sentinel); hence the decoding loop, started at the root on any bit string
    with any counter values, never reads through a null cursor. *)
Theorem buildHuffmanTree_decoder_safe (freqTable : CharMap.t Z) :
  (2 <= CharMap.size freqTable)%nat ->
  exists root,
    buildHuffmanTree freqTable = Some root /\
    is_leaf root = false /\
    (forall n, subnode n root -> is_leaf n = false ->
               exists l r, left n = Some l /\ right n = Some r) /\
    (forall encoded decodedCount total,
        decodeLoop root root encoded decodedCount total <> None).
Proof.
  intros Hsize.
  destruct (buildHuffmanTree_spec freqTable) as (root & Hb & Ht & Hp).
  { intros ->. simpl in Hsize. lia. }
  destruct (buildHuffmanTree_root_internal freqTable root Hsize Ht Hp) as [Hint _].
  exists root. repeat split; try assumption.
  - intros n Hsub Hn. apply (subnode_huffman_tree n root Hsub) in Ht.
    destruct (internal_children n Ht Hn) as (_ & l & r & Hl & Hr & _).
    now exists l, r.
  - intros encoded decodedCount total. now apply decodeLoop_defined.
Qed.

(** C3. For every frequency table with at least two symbols, the code table
    that [generateHuffmanCodes] fills from the tree of [buildHuffmanTree]
    holds a code for every symbol of the table other than the sentinel and is
    prefix-free: the code of one symbol is never a prefix of the code of
    another. *)
Theorem generateHuffmanCodes_prefix_free (freqTable : CharMap.t Z) :
  (2 <= CharMap.size freqTable)%nat ->
  exists root,
    buildHuffmanTree freqTable = Some root /\
    let huffmanCodes := generateHuffmanCodes (Some root) [] CharMap.empty in
    (forall c, In c (CharMap.keys freqTable) -> c <> NUL ->
               CharMap.find c huffmanCodes <> None) /\
    forall a b code_a code_b,
      a <> b ->
      CharMap.find a huffmanCodes = Some code_a ->
      CharMap.find b huffmanCodes = Some code_b ->
      ~ is_prefix code_a code_b.
Proof.
  intros Hsize.
  destruct (buildHuffmanTree_spec freqTable) as (root & Hb & Ht & Hp).
  { intros ->. simpl in Hsize. lia. }
  exists root. split; [assumption|]. cbv zeta. simpl. split.
  { intros c Hc Hne.
    apply (generateHuffmanCodes_node_covers root Ht); [|assumption].
    rewrite (codewords_keys root Ht).
    eapply Permutation_in; [symmetry; apply Permutation_map; exact Hp|exact Hc]. }
  intros a b code_a code_b Hab Ha Hb' Hpre.
  apply (generateHuffmanCodes_node_inv root Ht) in Ha, Hb'.
  destruct Ha as [Ha|(_ & p & Hinp & ->)]; [discriminate|].
  destruct Hb' as [Hb'|(_ & q & Hinq & ->)]; [discriminate|].
  simpl in Hpre.
  destruct (codewords_prefix_free root Ht a p b q Hinp Hinq Hpre) as [E _].
  contradiction.
Qed.

End TreeClaims.

Section Sentinel.

Context {Q : PriorityQueue}.

Lemma two_symbols_size (content : str) (a b : char) :
  a <> b -> In a content -> In b content ->
  (2 <= CharMap.size (buildFrequencyTable content))%nat.
Proof.
  intros Hab Ha Hb.
  apply buildFrequencyTable_keys in Ha, Hb. unfold CharMap.size, CharMap.keys in *.
  destruct (buildFrequencyTable content) as [|e1 [|e2 m]]; simpl in *;
    [contradiction| |lia].
  destruct Ha as [Ha|[]], Hb as [Hb|[]]. congruence.
Qed.

(** C10. Internal nodes carry the data byte ['\0'], the value
    [generateHuffmanCodes] takes as "no symbol here".  So for every input
    that holds the byte 0x00 and at least one other byte value: the root of
    the tree is internal, every internal node of it is marked ['\0'], the
    code table has no entry for 0x00,
    and the encoding loop appends nothing when it comes to an occurrence of
    0x00 (the string encoded up to and including that occurrence is the
    string encoded before it). *)
Theorem sentinel_byte_has_no_code (content : str) (c : char) :
  In NUL content -> In c content -> c <> NUL ->
  exists root,
    buildHuffmanTree (buildFrequencyTable content) = Some root /\
    is_leaf root = false /\
    (forall n, subnode n root -> is_leaf n = false -> data n = NUL) /\
    let huffmanCodes := generateHuffmanCodes (Some root) [] CharMap.empty in
    CharMap.find NUL huffmanCodes = None /\
    forall before after,
      content = before ++ NUL :: after ->
      encodeContent (before ++ [NUL]) huffmanCodes =
      encodeContent before huffmanCodes.
Proof.
  intros H0 Hc Hne.
  assert (Hsize := two_symbols_size content c NUL Hne Hc H0).
  destruct (buildHuffmanTree_spec (buildFrequencyTable content))
    as (root & Hb & Ht & Hp).
  { intros E. rewrite E in Hsize. simpl in Hsize. lia. }
  destruct (buildHuffmanTree_root_internal _ root Hsize Ht Hp) as [Hint Hdata].
  exists root. repeat split; try assumption.
  - intros n Hsub Hn. apply (subnode_huffman_tree n root Hsub) in Ht.
    now destruct (internal_children n Ht Hn) as [Hd _].
  - simpl. now rewrite generateHuffmanCodes_node_NUL.
  - intros before after _. rewrite !encodeContent_flat_map, flat_map_app. simpl.
    rewrite codeOf_find. simpl. rewrite generateHuffmanCodes_node_NUL. simpl.
    now rewrite !app_nil_r.
Qed.

End Sentinel.

(** ** Bit packing *)

Lemma generateHuffmanCodes_node_bits t : forall code m,
  Forall is_bit code ->
  (forall k v, In (k, v) m -> Forall is_bit v) ->
  forall k v, In (k, v) (generateHuffmanCodes_node t code m) -> Forall is_bit v.
Proof.
  induction t as [d f l r IHl IHr] using HuffmanNode_ind. intros code m Hcode Hm.
  cbn [generateHuffmanCodes_node data left right].
  assert (H0 : forall k v,
             In (k, v) (if char_eqb d NUL then m else CharMap.set d code m) ->
             Forall is_bit v).
  { intros k v. destruct (char_eqb d NUL); [apply Hm|].
    intros Hin. apply CharMapFacts.In_set in Hin.
    destruct Hin as [[= _ ->]|Hin]; [assumption|eauto]. }
  assert (Hc0 : Forall is_bit (code ++ [c0]))
    by (apply Forall_app; split; [assumption|repeat constructor]).
  assert (Hc1 : Forall is_bit (code ++ [c1]))
    by (apply Forall_app; split; [assumption|constructor; [now right|constructor]]).
  destruct l as [x|], r as [y|]; simpl in IHl, IHr.
  - apply (IHr _ _ Hc1). apply (IHl _ _ Hc0). exact H0.
  - apply (IHl _ _ Hc0). exact H0.
  - apply (IHr _ _ Hc1). exact H0.
  - exact H0.
Qed.

Lemma codeOf_bits root c :
  Forall is_bit (codeOf (generateHuffmanCodes (Some root) [] CharMap.empty) c).
Proof.
  rewrite codeOf_find.
  destruct (CharMap.find c _) eqn:E; [|constructor].
  apply CharMapFacts.find_Some_In in E. simpl in E.
  eapply generateHuffmanCodes_node_bits; [constructor| |exact E].
  intros k v [].
Qed.

Lemma length_flat_map_sum {A B : Type} (f : A -> list B) (l : list A) :
  List.length (flat_map f l) = list_sum (map (fun x => List.length (f x)) l).
Proof.
  induction l as [|x l IH]; simpl; [reflexivity|].
  now rewrite length_app, IH.
Qed.

Lemma paddingOf_spec n :
  (paddingOf n < 8)%nat /\ (n + paddingOf n = 8 * ((n + 7) / 8))%nat.
Proof.
  unfold paddingOf.
  pose proof (Nat.div_mod_eq n 8) as Hn.
  pose proof (Nat.mod_upper_bound n 8 ltac:(lia)) as Hr.
  pose proof (Nat.div_mod_eq (n + 7) 8) as Hm.
  pose proof (Nat.mod_upper_bound (n + 7) 8 ltac:(lia)) as Hs.
  destruct (n mod 8)%nat as [|r] eqn:E; split; lia.
Qed.

Lemma addPadding_spec (encoded : str) :
  addPadding encoded = encoded ++ repeat c0 (paddingOf (List.length encoded)).
Proof.
  unfold addPadding, paddingOf.
  set (n := List.length encoded).
  assert (Hmod : Z.of_nat n mod 8 = Z.of_nat (n mod 8)).
  { rewrite Nat2Z.inj_mod. reflexivity. }
  pose proof (Nat.mod_upper_bound n 8 ltac:(lia)) as Hr.
  rewrite Hmod. destruct (n mod 8)%nat as [|r] eqn:E.
  - simpl. now rewrite app_nil_r.
  - destruct (Z.eqb_spec (8 - Z.of_nat (S r)) 8) as [e|e]; [lia|]. simpl negb. cbv iota.
    do 2 f_equal. lia.
Qed.

Lemma is_bit_bool (c : char) : is_bit c -> exists b, c = bit_of_bool b.
Proof. intros [->| ->]; [now exists false|now exists true]. Qed.

Lemma bitset_byte_bool (b7 b6 b5 b4 b3 b2 b1 b0 : bool) :
  let chunk := map bit_of_bool [b7; b6; b5; b4; b3; b2; b1; b0] in
  let bits := match bitset_of_string chunk 0 with Some v => v | None => 0 end in
  bitset_of_string chunk 0 = Some bits /\
  bitset_to_string (int_to_char bits) = chunk.
Proof.
  destruct b7, b6, b5, b4, b3, b2, b1, b0; split; vm_compute; reflexivity.
Qed.

(** One full group of eight bit characters becomes the byte whose bits,
    most significant first, are those characters. *)
Lemma bitset_byte (chunk : str) :
  List.length chunk = 8%nat -> Forall is_bit chunk ->
  exists bits, bitset_of_string chunk 0 = Some bits /\
               bitset_to_string (int_to_char bits) = chunk.
Proof.
  intros Hlen Hbits.
  do 8 (destruct chunk as [|? chunk]; [discriminate|]).
  destruct chunk; [|discriminate]. clear Hlen.
  repeat match goal with
         | H : Forall is_bit (_ :: _) |- _ =>
             let Hb := fresh "Hb" in
             apply Forall_cons_iff in H; destruct H as [Hb H];
             apply is_bit_bool in Hb; destruct Hb as [? ->]
         end.
  eexists. apply bitset_byte_bool.
Qed.

Lemma putBytes_shift (chunk rest : str) (starts : list nat) :
  putBytes (chunk ++ rest) (map (fun i => List.length chunk + i)%nat starts) =
  putBytes rest starts.
Proof.
  induction starts as [|i starts IH]; simpl; [reflexivity|].
  rewrite IH. unfold substr.
  rewrite skipn_app, skipn_all2 by lia.
  replace (List.length chunk + i - List.length chunk)%nat with i by lia.
  reflexivity.
Qed.

Lemma putBytes_groups : forall (k : nat) (encoded : str),
  List.length encoded = (8 * k)%nat -> Forall is_bit encoded ->
  exists payload,
    putBytes encoded (map (fun j => 8 * j)%nat (seq 0 k)) = Some payload /\
    List.length payload = k /\
    flat_map bitset_to_string payload = encoded.
Proof.
  induction k as [|k IH]; intros encoded Hlen Hbits.
  - destruct encoded; [|discriminate]. now exists [].
  - rewrite <- (firstn_skipn 8 encoded) in *.
    set (chunk := firstn 8 encoded) in *. set (rest := skipn 8 encoded) in *.
    assert (Hchunk : List.length chunk = 8%nat).
    { subst chunk. rewrite firstn_skipn in Hlen. rewrite length_firstn. lia. }
    rewrite length_app in Hlen. apply Forall_app in Hbits. destruct Hbits as [Hb1 Hb2].
    destruct (bitset_byte chunk Hchunk Hb1) as (bits & Hbits & Hback).
    destruct (IH rest ltac:(lia) Hb2) as (payload & Hput & Hplen & Hpback).
    exists (int_to_char bits :: payload).
    cbn [seq map putBytes].
    replace (substr (chunk ++ rest) (8 * 0) 8) with chunk.
    2:{ unfold substr. simpl skipn. rewrite firstn_app, Hchunk.
        rewrite firstn_all2 by lia. simpl. now rewrite app_nil_r. }
    rewrite Hbits, <- seq_shift, map_map.
    erewrite map_ext with (g := fun j => (List.length chunk + 8 * j)%nat)
      by (intros; lia).
    rewrite <- (map_map (fun j => 8 * j)%nat (fun i => List.length chunk + i)%nat).
    rewrite putBytes_shift, Hput. repeat split.
    + simpl. now rewrite Hplen.
    + cbn [flat_map]. now rewrite Hback, Hpback.
Qed.

Lemma writeBits_spec (encoded : str) :
  Forall is_bit encoded -> (List.length encoded mod 8 = 0)%nat ->
  exists payload,
    writeBits encoded = Some payload /\
    (8 * List.length payload = List.length encoded)%nat /\
    flat_map bitset_to_string payload = encoded.
Proof.
  intros Hbits Hmod. unfold writeBits.
  pose proof (Nat.div_mod_eq (List.length encoded) 8) as Hn.
  pose proof (Nat.div_mod_eq (List.length encoded + 7) 8) as Hm.
  pose proof (Nat.mod_upper_bound (List.length encoded + 7) 8 ltac:(lia)) as Hs.
  assert (Hk : ((List.length encoded + 7) / 8 = List.length encoded / 8)%nat) by lia.
  rewrite Hk.
  destruct (putBytes_groups (List.length encoded / 8) encoded ltac:(lia) Hbits)
    as (payload & Hput & Hlen & Hback).
  exists payload. repeat split; [assumption|lia|assumption].
Qed.

Section Packing.

Context {Q : PriorityQueue}.

Lemma frequency_table_nonempty (content : str) :
  content <> [] -> buildFrequencyTable content <> [].
Proof.
  intros Hne E. destruct content as [|c content]; [contradiction|].
  pose proof (proj2 (buildFrequencyTable_keys (c :: content) c) (or_introl eq_refl)) as H.
  now rewrite E in H.
Qed.

(** [compressFile] on a non-empty buffer always writes its artifact: the
    header, then the packed form of the padded bit string. *)
Lemma compressFile_saved (content : str) :
  content <> [] ->
  exists root payload,
    buildHuffmanTree (buildFrequencyTable content) = Some root /\
    huffman_tree root /\
    Permutation (leaves root) (buildFrequencyTable content) /\
    let encoded :=
      addPadding (encodeContent content
                    (generateHuffmanCodes (Some root) [] CharMap.empty)) in
    (8 * List.length payload = List.length encoded)%nat /\
    flat_map bitset_to_string payload = encoded /\
    compressFile content =
      Saved (writeHeader (buildFrequencyTable content) ++ payload) CompressionSuccessful.
Proof.
  intros Hne.
  destruct (buildHuffmanTree_spec _ (frequency_table_nonempty content Hne))
    as (root & Hb & Ht & Hp).
  set (codes := generateHuffmanCodes (Some root) [] CharMap.empty).
  destruct (writeBits_spec (addPadding (encodeContent content codes)))
    as (payload & Hw & Hlen & Hback).
  - rewrite addPadding_spec. apply Forall_app. split.
    + rewrite encodeContent_flat_map. apply Forall_flat_map, Forall_forall.
      intros c _. apply codeOf_bits.
    + apply Forall_forall. intros x Hx. apply repeat_spec in Hx. now left.
  - rewrite addPadding_spec, length_app, repeat_length.
    destruct (paddingOf_spec (List.length (encodeContent content codes))) as [_ ->].
    rewrite Nat.mul_comm. apply Nat.Div0.mod_mul.
  - exists root, payload. cbv zeta. fold codes. repeat split; try assumption.
    unfold compressFile. destruct content; [contradiction|].
    rewrite Hb. fold codes. now rewrite Hw.
Qed.

(** C5. For every non-empty input, the payload that [compressFile] writes
    after the header has, in bits, the sum over the input bytes of the length
    of each byte's code, rounded up to the next multiple of 8; read back most
    significant bit first, byte after byte, it is the concatenated codes
    followed by fewer than eight '0' bits of padding.  The code of a byte
    is what [huffmanCodes[c]] yields in the encoding loop, the empty string
    for a byte without an entry. *)
Theorem compressFile_bit_packing (content : str) :
  content <> [] ->
  exists root payload padding,
    buildHuffmanTree (buildFrequencyTable content) = Some root /\
    let huffmanCodes := generateHuffmanCodes (Some root) [] CharMap.empty in
    compressFile content =
      Saved (writeHeader (buildFrequencyTable content) ++ payload)
            CompressionSuccessful /\
    (8 * List.length payload =
     8 * ((list_sum (map (fun c => List.length (codeOf huffmanCodes c)) content) + 7) / 8))%nat /\
    (padding < 8)%nat /\
    flat_map bitset_to_string payload =
      encodeContent content huffmanCodes ++ repeat c0 padding.
Proof.
  intros Hne.
  destruct (compressFile_saved content Hne)
    as (root & payload & Hb & Ht & Hp & Hlen & Hback & Hc).
  set (codes := generateHuffmanCodes (Some root) [] CharMap.empty) in *.
  exists root, payload, (paddingOf (List.length (encodeContent content codes))).
  split; [assumption|]. cbv zeta. fold codes.
  destruct (paddingOf_spec (List.length (encodeContent content codes))) as [Hlt Hsum].
  repeat split; try assumption.
  - rewrite Hlen, addPadding_spec, length_app, repeat_length, Hsum.
    now rewrite encodeContent_flat_map, length_flat_map_sum.
  - now rewrite Hback, addPadding_spec.
Qed.

End Packing.

(** ** The decoding loop *)

(** When the counter meets [totalChars]. *)
Lemma stop_after_pos (decodedCount total : Z) :
  INT_MIN <= decodedCount -> decodedCount < total -> total <= INT_MAX ->
  stop_after decodedCount total = Z.to_nat (total - decodedCount).
Proof.
  unfold stop_after, INT_MIN, INT_MAX. intros H1 H2 H3.
  rewrite Z.mod_small by lia. f_equal. lia.
Qed.

Lemma stop_after_last (decodedCount total : Z) :
  INT_MIN <= total <= INT_MAX ->
  int_add decodedCount 1 = total -> stop_after decodedCount total = 1%nat.
Proof.
  intros Ht E. unfold stop_after, int_add in *.
  destruct (wrap_int_eq (decodedCount + 1)) as [q Eq].
  replace (total - decodedCount - 1) with ((- q) * 4294967296) by lia.
  now rewrite Z.mod_mul by lia.
Qed.

Lemma stop_after_next (decodedCount total : Z) :
  INT_MIN <= total <= INT_MAX ->
  int_add decodedCount 1 <> total ->
  stop_after decodedCount total = S (stop_after (int_add decodedCount 1) total).
Proof.
  intros Ht Hne. unfold stop_after, int_add in *.
  pose proof (wrap_int_range (decodedCount + 1)) as Hr.
  destruct (wrap_int_eq (decodedCount + 1)) as [q Eq]. rewrite Eq in *.
  set (y := total - decodedCount - 1).
  replace (total - (decodedCount + 1 - 4294967296 * q) - 1)
    with (y - 1 + q * 4294967296) by (subst y; lia).
  rewrite Z.mod_add by lia.
  pose proof (Z.mod_pos_bound y 4294967296 ltac:(lia)) as Hb.
  pose proof (Z.div_mod y 4294967296 ltac:(lia)) as Hy.
  assert (Hnz : y mod 4294967296 <> 0).
  { intros Hz. apply Hne. symmetry.
    apply (int_congruent _ _ (y / 4294967296 + q)); [assumption..|].
    subst y. lia. }
  assert (E : (y - 1) mod 4294967296 = y mod 4294967296 - 1).
  { symmetry. apply (Z.mod_unique _ _ (y / 4294967296)); lia. }
  rewrite E. lia.
Qed.

(** On a tree with an internal root the loop puts the symbols the bits
    hold, cut off where the counter meets [totalChars]. *)
Lemma decodeLoop_walkAll root :
  huffman_tree root -> is_leaf root = false ->
  forall encoded current decodedCount total,
  INT_MIN <= total <= INT_MAX ->
  huffman_tree current -> is_leaf current = false ->
  decodeLoop root current encoded decodedCount total =
  Some (firstn (stop_after decodedCount total) (walkAll root current encoded)).
Proof.
  intros Hroot Hint. induction encoded as [|bit rest IH];
    intros current decodedCount total Ht Hcur Hcint; cbn [decodeLoop walkAll].
  - now rewrite firstn_nil.
  - destruct (internal_children current Hcur Hcint) as (_ & l & r & -> & -> & Hl & Hr).
    assert (Hn : exists next,
               (if char_eqb bit c0 then Some l else Some r) = Some next /\
               huffman_tree next)
      by (destruct (char_eqb bit c0); eauto).
    destruct Hn as (next & -> & Hnext).
    destruct (is_leaf next) eqn:E; [|now apply IH].
    cbv zeta. destruct (Z.eqb_spec (int_add decodedCount 1) total) as [e|e].
    + now rewrite (stop_after_last decodedCount total Ht e).
    + rewrite (IH root (int_add decodedCount 1) total Ht Hroot Hint).
      now rewrite (stop_after_next decodedCount total Ht e).
Qed.

Lemma walkAll_app root : forall encoded extra current,
  exists tail,
    walkAll root current (encoded ++ extra) = walkAll root current encoded ++ tail.
Proof.
  induction encoded as [|bit rest IH]; intros extra current; simpl.
  - now exists (walkAll root current extra).
  - destruct (if char_eqb bit c0 then left current else right current) as [next|];
      [|now exists []].
    destruct (is_leaf next).
    + destruct (IH extra root) as [tail ->]. now exists tail.
    + apply IH.
Qed.

Section Decoder.

Context {Q : PriorityQueue}.

(** What [decodePayload] leaves in the output for a table of at least two
    symbols. *)
Lemma decodePayload_spec (freqTable : CharMap.t Z) (payload : str) :
  (2 <= CharMap.size freqTable)%nat ->
  exists root,
    buildHuffmanTree freqTable = Some root /\
    huffman_tree root /\ is_leaf root = false /\
    let encoded := flat_map bitset_to_string payload in
    decodePayload freqTable payload =
      Saved (firstn (stop_after 0 (totalChars freqTable)) (walkAll root root encoded))
            DecompressionSuccessful.
Proof.
  intros Hsize.
  destruct (buildHuffmanTree_spec freqTable) as (root & Hb & Ht & Hp).
  { intros ->. simpl in Hsize. lia. }
  destruct (buildHuffmanTree_root_internal freqTable root Hsize Ht Hp) as [Hint _].
  exists root. repeat split; try assumption. cbv zeta.
  unfold decodePayload. rewrite Hb.
  now rewrite (decodeLoop_walkAll root Ht Hint _ root 0 _
                 (totalChars_range freqTable) Ht Hint).
Qed.

(** With a positive sum the counter starts below it. *)
Lemma stop_after_total (freqTable : CharMap.t Z) :
  0 < totalChars freqTable ->
  stop_after 0 (totalChars freqTable) = Z.to_nat (totalChars freqTable).
Proof.
  intros Hpos. pose proof (totalChars_range freqTable) as Hr.
  rewrite stop_after_pos by (unfold INT_MIN in *; lia). f_equal. lia.
Qed.



End Decoder.

(** ** The header: what [operator<<] prints, [operator>>] reads back *)

Lemma digit_char_spec (d : Z) :
  0 <= d <= 9 -> isdigit (digit_char d) = true /\ digit_value (digit_char d) = d.
Proof.
  intros H.
  assert (E : d = 0 \/ d = 1 \/ d = 2 \/ d = 3 \/ d = 4 \/
              d = 5 \/ d = 6 \/ d = 7 \/ d = 8 \/ d = 9) by lia.
  repeat (destruct E as [->|E]; [split; reflexivity|]).
  subst. split; reflexivity.
Qed.

Lemma read_digits_app (ds : str) : forall acc c rest,
  all_digits ds -> isdigit c = false ->
  read_digits (ds ++ c :: rest) acc = (horner acc ds, c :: rest).
Proof.
  induction ds as [|d ds IH]; intros acc c rest Hds Hc; simpl.
  - now rewrite Hc.
  - inversion Hds as [|? ? Hd Hds']; subst. rewrite Hd. now apply IH.
Qed.

Lemma digits_acc (fuel : nat) : forall n acc,
  digits fuel n acc = digits fuel n [] ++ acc.
Proof.
  induction fuel as [|fuel IH]; intros n acc; simpl; [reflexivity|].
  destruct (n / 10 =? 0); [reflexivity|].
  rewrite IH, (IH _ [_]), <- app_assoc. reflexivity.
Qed.

Lemma digits_spec (fuel : nat) : forall n,
  0 <= n < 2 ^ (Z.of_nat fuel + 1) ->
  all_digits (digits fuel n []) /\ horner 0 (digits fuel n []) = n /\
  digits fuel n [] <> [].
Proof.
  induction fuel as [|fuel IH]; intros n Hn.
  - change (2 ^ (Z.of_nat 0 + 1)) with 2 in Hn. simpl. assert (Hd : 0 <= n mod 10 <= 9) by (pose proof (Z.mod_pos_bound n 10); lia).
    destruct (digit_char_spec _ Hd) as [H1 H2].
    repeat split; [repeat constructor; assumption| |discriminate].
    unfold horner. simpl. rewrite H2. rewrite Z.mod_small; lia.
  - cbn [digits]. assert (Hd : 0 <= n mod 10 <= 9) by (pose proof (Z.mod_pos_bound n 10); lia).
    destruct (digit_char_spec _ Hd) as [H1 H2].
    destruct (Z.eqb_spec (n / 10) 0) as [e|e].
    + repeat split; [repeat constructor; assumption| |discriminate].
      unfold horner. simpl. rewrite H2.
      pose proof (Z.div_mod n 10 ltac:(lia)). lia.
    + rewrite digits_acc.
      assert (Hq : 0 <= n / 10 < 2 ^ (Z.of_nat fuel + 1)).
      { split; [apply Z.div_pos; lia|].
        apply Z.div_lt_upper_bound; [lia|].
        replace (Z.of_nat (S fuel) + 1) with (Z.succ (Z.of_nat fuel + 1)) in Hn by lia.
        rewrite Z.pow_succ_r in Hn by lia.
        assert (Hp : 0 < 2 ^ (Z.of_nat fuel + 1)) by (apply Z.pow_pos_nonneg; lia).
        revert Hn Hp. generalize (2 ^ (Z.of_nat fuel + 1)). intros p Hn Hp. lia. }
      destruct (IH _ Hq) as (Hall & Hval & Hne).
      repeat split.
      * apply Forall_app. split; [assumption|repeat constructor; assumption].
      * unfold horner in *. rewrite fold_left_app, Hval. cbn [fold_left]. rewrite H2.
        pose proof (Z.div_mod n 10 ltac:(lia)). lia.
      * intros E. apply app_eq_nil in E. destruct E; discriminate.
Qed.

Lemma print_unsigned_spec (n : Z) :
  0 <= n ->
  all_digits (print_unsigned n) /\ horner 0 (print_unsigned n) = n /\
  print_unsigned n <> [].
Proof.
  intros Hn. unfold print_unsigned. apply digits_spec.
  split; [assumption|].
  rewrite Z2Nat.id by apply Z.log2_nonneg.
  destruct (Z.eq_dec n 0) as [->|Hz]; [reflexivity|].
  apply Z.log2_spec. lia.
Qed.

Lemma isdigit_not_space (c : char) : isdigit c = true -> isspace c = false.
Proof.
  unfold isdigit, isspace. cbv zeta. intros H.
  apply andb_true_iff in H. destruct H as [H1 H2].
  apply N.leb_le in H1. apply N.leb_le in H2.
  destruct (N.eqb_spec (N_of_ascii c) 32); [lia|].
  destruct (N.leb_spec 9 (N_of_ascii c)), (N.leb_spec (N_of_ascii c) 13);
    simpl; try reflexivity; lia.
Qed.

Lemma isdigit_not_sign (c : char) :
  isdigit c = true -> char_eqb c "-"%char = false /\ char_eqb c "+"%char = false.
Proof.
  intros H. split; apply char_eqb_neq; intros ->; discriminate.
Qed.

(** Reading back a printed [int] that is followed by a character which is
    not a digit. *)
Lemma read_int_print_int (z : Z) (c : char) (rest : str) :
  INT_MIN <= z <= INT_MAX -> isdigit c = false ->
  read_int (print_int z ++ c :: rest) = Some (z, c :: rest).
Proof.
  intros Hz Hc. unfold print_int.
  destruct (Z.ltb_spec z 0) as [Hneg|Hpos].
  - destruct (print_unsigned_spec (- z) ltac:(lia)) as (Hall & Hval & Hne).
    destruct (print_unsigned (- z)) as [|d ds] eqn:E; [contradiction|].
    assert (Hd : isdigit d = true) by (now inversion Hall).
    unfold read_int. cbn [app skip_ws]. replace (isspace "-"%char) with false by reflexivity.
    rewrite char_eqb_refl, Hd.
    change (d :: ds ++ c :: rest) with ((d :: ds) ++ c :: rest).
    rewrite read_digits_app, Hval by assumption.
    replace (- - z) with z by lia.
    destruct (Z.leb_spec INT_MIN z), (Z.leb_spec z INT_MAX); try lia. reflexivity.
  - destruct (print_unsigned_spec z Hpos) as (Hall & Hval & Hne).
    destruct (print_unsigned z) as [|d ds] eqn:E; [contradiction|].
    assert (Hd : isdigit d = true) by (now inversion Hall).
    unfold read_int. cbn [app skip_ws]. rewrite (isdigit_not_space d Hd).
    destruct (isdigit_not_sign d Hd) as [-> ->]. rewrite Hd.
    change (d :: ds ++ c :: rest) with ((d :: ds) ++ c :: rest).
    rewrite read_digits_app, Hval by assumption.
    destruct (Z.leb_spec INT_MIN z), (Z.leb_spec z INT_MAX); try lia. reflexivity.
Qed.

Lemma read_int_skip_space (s : str) : read_int (" "%char :: s) = read_int s.
Proof. reflexivity. Qed.

Lemma sorted_app_l {V : Type} (l1 l2 : CharMap.t V) :
  CharMap.sorted (l1 ++ l2) -> CharMap.sorted l1.
Proof.
  induction l1 as [|[k v] l1 IH]; simpl; intros H; [constructor|].
  inversion H as [|? ? ? Hall Hs]; subst. constructor; [|auto].
  apply Forall_app in Hall. tauto.
Qed.

(** Storing a key greater than all keys present appends the entry. *)
Lemma set_append {V : Type} (k : char) (v : V) (acc : CharMap.t V) :
  CharMap.sorted (acc ++ [(k, v)]) -> CharMap.set k v acc = acc ++ [(k, v)].
Proof.
  induction acc as [|[k0 v0] acc IH]; simpl; intros H; [reflexivity|].
  inversion H as [|? ? ? Hall Hs]; subst.
  apply Forall_app in Hall. destruct Hall as [_ Hk].
  inversion Hk as [|? ? Hlt _]; subst. simpl in Hlt.
  assert (Hne : k <> k0) by (intros ->; lia).
  apply char_eqb_neq in Hne. rewrite Hne.
  destruct (Z.ltb_spec (char_to_int k) (char_to_int k0)); [lia|].
  now rewrite IH.
Qed.

Lemma int_range_char (c : char) : INT_MIN <= char_to_int c <= INT_MAX.
Proof. pose proof (char_to_int_range c). unfold INT_MIN, INT_MAX. lia. Qed.

Lemma readTable_entries (entries : CharMap.t Z) : forall acc payload,
  CharMap.sorted (acc ++ entries) ->
  Forall (fun e => INT_MIN <= snd e <= INT_MAX) entries ->
  readTable (List.length entries) (flat_map writeEntry entries ++ payload) acc =
  Some (acc ++ entries, payload).
Proof.
  induction entries as [|[k v] entries IH]; intros acc payload Hs Hr.
  - simpl. now rewrite app_nil_r.
  - inversion Hr as [|? ? Hv Hr']; subst. simpl in Hv.
    cbn [List.length readTable flat_map]. unfold writeEntry at 1. cbn [fst snd].
    rewrite <- !app_assoc. cbn [app].
    rewrite read_int_print_int by (apply int_range_char || reflexivity).
    rewrite read_int_skip_space.
    rewrite read_int_print_int by (assumption || reflexivity).
    cbn [ignore tl]. rewrite int_to_char_to_int.
    replace (acc ++ (k, v) :: entries) with ((acc ++ [(k, v)]) ++ entries) in *
      by now rewrite <- app_assoc.
    rewrite set_append by (eapply sorted_app_l; exact Hs).
    now apply IH.
Qed.

(** The header written by [compressFile] is read back by
    [decompressFile], and what follows it is the payload. *)
Lemma readHeader_writeHeader (freqTable : CharMap.t Z) (payload : str) :
  CharMap.sorted freqTable ->
  Forall (fun e => INT_MIN <= snd e <= INT_MAX) freqTable ->
  Z.of_nat (CharMap.size freqTable) <= INT_MAX ->
  readHeader (writeHeader freqTable ++ payload) = Some (freqTable, payload).
Proof.
  intros Hs Hr Hsize. unfold readHeader, writeHeader.
  assert (Hp : print_unsigned (Z.of_nat (CharMap.size freqTable)) =
               print_int (Z.of_nat (CharMap.size freqTable))).
  { unfold print_int. destruct (Z.ltb_spec (Z.of_nat (CharMap.size freqTable)) 0); [lia|reflexivity]. }
  rewrite Hp, <- !app_assoc. cbn [app].
  rewrite read_int_print_int by (unfold INT_MIN; (split; lia) || reflexivity).
  cbn [ignore tl]. rewrite Nat2Z.id. unfold CharMap.size.
  apply (readTable_entries freqTable [] payload); assumption.
Qed.

(** ** Decoding what was encoded *)

Lemma leaf_codewords t :
  huffman_tree t -> is_leaf t = true -> codewords t = [(data t, [])].
Proof. destruct 1; simpl; [reflexivity|discriminate]. Qed.

(** Walking the codeword of a leaf from an internal node emits that leaf's
    symbol at the codeword's last bit and puts the cursor back on the
    root. *)
Lemma walkAll_codeword root t :
  huffman_tree t -> is_leaf t = false ->
  forall c q rest, In (c, q) (codewords t) ->
  walkAll root t (q ++ rest) = c :: walkAll root root rest.
Proof.
  induction 1 as [d f|f l r Hl IHl Hr IHr]; [discriminate|].
  intros _ c q rest Hin. cbn [codewords] in Hin.
  apply in_app_or in Hin. destruct Hin as [Hin|Hin];
    apply in_map_iff in Hin; destruct Hin as [[c' q'] [[= -> <-] Hin]];
    cbn [app walkAll left right].
  - rewrite char_eqb_refl. destruct (is_leaf l) eqn:E.
    + rewrite (leaf_codewords l Hl E) in Hin.
      destruct Hin as [[= <- <-]|[]]. reflexivity.
    + now apply IHl.
  - replace (char_eqb c1 c0) with false by reflexivity.
    destruct (is_leaf r) eqn:E.
    + rewrite (leaf_codewords r Hr E) in Hin.
      destruct Hin as [[= <- <-]|[]]. reflexivity.
    + now apply IHr.
Qed.

Lemma walkAll_content root (codes : CharMap.t (list ascii)) :
  huffman_tree root -> is_leaf root = false ->
  forall content rest,
  (forall c, In c content -> In (c, codeOf codes c) (codewords root)) ->
  walkAll root root (flat_map (codeOf codes) content ++ rest) =
  content ++ walkAll root root rest.
Proof.
  intros Ht Hint. induction content as [|c content IH]; intros rest Hcodes;
    [reflexivity|].
  cbn [flat_map]. rewrite <- app_assoc.
  rewrite (walkAll_codeword root root Ht Hint c _ _ (Hcodes c (or_introl eq_refl))).
  cbn [app]. f_equal. apply IH. intros c' Hc'. apply Hcodes. now right.
Qed.

(** In a tree over a table with distinct keys, the code table maps every
    symbol other than the sentinel to the path of its leaf. *)
Lemma codeOf_codeword (freqTable : CharMap.t Z) root (c : char) :
  huffman_tree root -> Permutation (leaves root) freqTable ->
  NoDup (CharMap.keys freqTable) -> In c (CharMap.keys freqTable) -> c <> NUL ->
  In (c, codeOf (generateHuffmanCodes (Some root) [] CharMap.empty) c)
     (codewords root).
Proof.
  intros Ht Hp Hnd Hin Hc.
  assert (Hk : Permutation (map fst (codewords root)) (CharMap.keys freqTable)).
  { rewrite (codewords_keys root Ht). now apply Permutation_map. }
  assert (Hnd' : NoDup (map fst (codewords root)))
    by (eapply Permutation_NoDup; [symmetry; exact Hk|assumption]).
  assert (Hin' : In c (map fst (codewords root)))
    by (eapply Permutation_in; [symmetry; exact Hk|assumption]).
  apply in_map_iff in Hin'. destruct Hin' as [[c' q] [E Hq]]. simpl in E. subst c'.
  rewrite codeOf_find. simpl.
  rewrite (generateHuffmanCodes_node_leaf root Ht [] CharMap.empty c q Hnd' Hq Hc).
  exact Hq.
Qed.

Section RoundTrip.

Context {Q : PriorityQueue}.

(** The table of a buffer that fits an [int] can be written and read back. *)
Lemma frequency_table_header (content payload : str) :
  Z.of_nat (List.length content) <= INT_MAX ->
  readHeader (writeHeader (buildFrequencyTable content) ++ payload) =
  Some (buildFrequencyTable content, payload).
Proof.
  intros Hlen.
  destruct (buildFrequencyTable_counts content) as (Hs & _ & _).
  pose proof (buildFrequencyTable_NoDup content) as Hnd.
  pose proof (buildFrequencyTable_values content Hlen) as Hvals.
  apply readHeader_writeHeader; [assumption| |].
  - eapply Forall_impl; [|exact Hvals]. intros [k v]. simpl.
    intros [Hpos ->]. unfold occurrences in *.
    pose proof (count_occ_bound ascii_dec k content). unfold INT_MIN. lia.
  - assert (H : (List.length (CharMap.keys (buildFrequencyTable content))
                 <= List.length content)%nat).
    { apply NoDup_incl_length; [assumption|]. intros c Hc.
      now apply buildFrequencyTable_keys. }
    unfold CharMap.keys in H. rewrite length_map in H. unfold CharMap.size. lia.
Qed.

(** X1. The round trip, where it holds: every buffer with at least two
    different byte values, none of them 0x00, and a length that fits an
    [int], is compressed to an artifact that [decompressFile] turns back
    into the buffer. *)
Theorem round_trip (content : str) (a b : char) :
  In a content -> In b content -> a <> b ->
  ~ In NUL content ->
  Z.of_nat (List.length content) <= INT_MAX ->
  exists file,
    compressFile content = Saved file CompressionSuccessful /\
    decompressFile file = Saved content DecompressionSuccessful.
Proof.
  intros Ha Hb Hab Hnul Hlen.
  assert (Hne : content <> []) by (intros ->; contradiction).
  destruct (compressFile_saved content Hne)
    as (root & payload & Hbuild & Ht & Hp & _ & Hback & Hc).
  cbv zeta in Hback.
  set (freqTable := buildFrequencyTable content) in *.
  set (codes := generateHuffmanCodes (Some root) [] CharMap.empty) in *.
  exists (writeHeader freqTable ++ payload). split; [assumption|].
  unfold decompressFile. subst freqTable.
  rewrite frequency_table_header by assumption.
  set (freqTable := buildFrequencyTable content) in *.
  assert (Hsize := two_symbols_size content a b Hab Ha Hb). fold freqTable in Hsize.
  destruct (decodePayload_spec freqTable payload Hsize)
    as (root' & Hbuild' & _ & Hint & Hd).
  rewrite Hbuild in Hbuild'. injection Hbuild' as <-.
  rewrite Hd. cbv zeta.
  pose proof (buildFrequencyTable_NoDup content) as Hnd.
  pose proof (buildFrequencyTable_total content Hlen) as Htotal.
  fold freqTable in Hnd, Htotal.
  assert (Hpos : 0 < Z.of_nat (List.length content))
    by (destruct content; [contradiction|simpl; lia]).
  rewrite stop_after_total, Htotal by lia.
  rewrite Nat2Z.id, Hback, addPadding_spec, encodeContent_flat_map.
  rewrite (walkAll_content root codes Ht Hint).
  - rewrite firstn_app, Nat.sub_diag, firstn_all. simpl. now rewrite app_nil_r.
  - intros c Hc'. apply (codeOf_codeword freqTable); try assumption.
    + now apply buildFrequencyTable_keys.
    + intros ->. contradiction.
Qed.

End RoundTrip.

Section StopCondition.

Context {Q : PriorityQueue}.

(** X2. The stop condition, where the tree has an internal root: for a header
    with at least two symbols and a positive [totalChars] (the frequency sum
    as the [int] the decoder computes, whether or not the frequencies
    overflow it), the decoder emits the first [totalChars] symbols the
    payload holds (all of them when it holds fewer), and once the counter
    has reached [totalChars] nothing that follows in the payload is looked
    at. *)
Theorem decoder_stop_condition (freqTable : CharMap.t Z) (payload extra : str) :
  (2 <= CharMap.size freqTable)%nat -> 0 < totalChars freqTable ->
  exists root,
    buildHuffmanTree freqTable = Some root /\
    let symbols := walkAll root root (flat_map bitset_to_string payload) in
    decodePayload freqTable payload =
      Saved (firstn (Z.to_nat (totalChars freqTable)) symbols)
            DecompressionSuccessful /\
    (totalChars freqTable <= Z.of_nat (List.length symbols) ->
     decodePayload freqTable (payload ++ extra) = decodePayload freqTable payload).
Proof.
  intros Hsize Hpos.
  destruct (decodePayload_spec freqTable payload Hsize) as (root & Hb & _ & _ & Hd).
  destruct (decodePayload_spec freqTable (payload ++ extra) Hsize)
    as (root' & Hb' & _ & _ & Hd').
  rewrite Hb in Hb'. injection Hb' as <-.
  cbv zeta in Hd, Hd'.
  rewrite stop_after_total in Hd, Hd' by assumption.
  exists root. split; [assumption|]. cbv zeta. split; [assumption|].
  intros Hlen. rewrite Hd, Hd'. f_equal.
  rewrite flat_map_app.
  destruct (walkAll_app root (flat_map bitset_to_string payload)
              (flat_map bitset_to_string extra) root) as [tail ->].
  rewrite firstn_app.
  replace (Z.to_nat (totalChars freqTable) -
           List.length (walkAll root root (flat_map bitset_to_string payload)))%nat
    with 0%nat by lia.
  simpl. now rewrite app_nil_r.
Qed.

End StopCondition.

(** ** One-symbol inputs *)

Lemma increment_single (c : char) (k : Z) :
  increment c [(c, k)] = [(c, int_add k 1)].
Proof.
  unfold increment, CharMap.subscript. cbn [CharMap.find].
  rewrite char_eqb_refl. cbn [CharMap.set]. now rewrite char_eqb_refl.
Qed.

(** The table of a run of one byte: one entry, the length as an [int]. *)
Lemma buildFrequencyTable_run (c : char) (n : nat) :
  buildFrequencyTable (repeat c (S n)) = [(c, wrap_int (Z.of_nat (S n)))].
Proof.
  unfold buildFrequencyTable. cbn [repeat fold_left].
  assert (H1 : increment c CharMap.empty = [(c, wrap_int 1)]).
  { unfold increment, CharMap.subscript. cbn [CharMap.find CharMap.empty CharMap.set].
    now rewrite char_eqb_refl. }
  rewrite H1.
  assert (H : forall m k,
             fold_left (fun freqTable x => increment x freqTable) (repeat c m)
                       [(c, wrap_int k)]
             = [(c, wrap_int (k + Z.of_nat m))]).
  { induction m as [|m IH]; intros k; cbn [repeat fold_left].
    - now rewrite Z.add_0_r.
    - rewrite increment_single. unfold int_add. rewrite wrap_int_add_l, IH.
      do 3 f_equal. lia. }
  rewrite H. do 3 f_equal. lia.
Qed.

Lemma buildFrequencyTable_repeat (c : char) (n : nat) :
  Z.of_nat (S n) <= INT_MAX ->
  buildFrequencyTable (repeat c (S n)) = [(c, Z.of_nat (S n))].
Proof.
  intros Hn. rewrite buildFrequencyTable_run.
  now rewrite wrap_int_small by (unfold INT_MIN, INT_MAX in *; lia).
Qed.

Section SingleSymbol.

Context {Q : PriorityQueue}.

(** X3. The missed case, in general: a buffer of [n >= 1] copies of one byte is
    compressed to a header with no payload, whatever the byte and the count;
    decoding that artifact emits nothing; and any payload byte after such a
    header sends the cursor through the null child of the single leaf. *)
Theorem single_symbol_artifact (c : char) (n : nat) :
  Z.of_nat (S n) <= INT_MAX ->
  compressFile (repeat c (S n)) =
    Saved (writeHeader [(c, Z.of_nat (S n))]) CompressionSuccessful /\
  decompressFile (writeHeader [(c, Z.of_nat (S n))]) =
    Saved [] DecompressionSuccessful /\
  forall byte payload,
    decompressFile (writeHeader [(c, Z.of_nat (S n))] ++ byte :: payload) = Undefined.
Proof.
  intros Hn.
  assert (Hread : forall payload,
             readHeader (writeHeader [(c, Z.of_nat (S n))] ++ payload) =
             Some ([(c, Z.of_nat (S n))], payload)).
  { intros payload. apply readHeader_writeHeader.
    - repeat constructor.
    - repeat constructor; simpl; unfold INT_MIN; lia.
    - simpl. unfold INT_MAX. lia. }
  split; [|split].
  - unfold compressFile. cbn [repeat]. change (c :: repeat c n) with (repeat c (S n)).
    rewrite buildFrequencyTable_repeat, buildHuffmanTree_single by assumption.
    rewrite encodeContent_flat_map.
    assert (Hempty : forall x, codeOf (generateHuffmanCodes
                                 (Some (newNode c (Z.of_nat (S n)))) [] CharMap.empty) x = []).
    { intros x. rewrite codeOf_find. simpl.
      destruct (char_eqb c NUL); simpl; [reflexivity|].
      now destruct (char_eqb x c). }
    assert (Hflat : forall l, flat_map (codeOf (generateHuffmanCodes
                                 (Some (newNode c (Z.of_nat (S n)))) [] CharMap.empty)) l = []).
    { induction l as [|x l IH]; cbn [flat_map]; [reflexivity|]. now rewrite Hempty, IH. }
    rewrite Hflat. cbn. now rewrite app_nil_r.
  - rewrite <- (app_nil_r (writeHeader _)). unfold decompressFile.
    rewrite Hread. unfold decodePayload. rewrite buildHuffmanTree_single. reflexivity.
  - intros byte payload. unfold decompressFile.
    rewrite Hread. unfold decodePayload. rewrite buildHuffmanTree_single.
    cbn [flat_map]. unfold bitset_to_string at 1. cbn [map app decodeLoop].
    cbn [newNode left right].
    now destruct (char_eqb _ c0).
Qed.

End SingleSymbol.

(** ** The container format *)

Lemma sorted_size_bound {V : Type} (m : CharMap.t V) :
  CharMap.sorted m -> forall lo, lo <= 127 ->
  Forall (fun e => lo < char_to_int (fst e)) m ->
  Z.of_nat (List.length m) <= 127 - lo.
Proof.
  induction 1 as [|k v m Hall Hs IH]; intros lo Hlo Hbound.
  - cbn [List.length]. lia.
  - inversion Hbound as [|? ? Hk _]; subst. cbn [fst] in Hk.
    pose proof (char_to_int_range k) as Hr.
    specialize (IH (char_to_int k) ltac:(lia) Hall).
    cbn [List.length]. lia.
Qed.

(** A [std::map<char, _>] holds at most 256 entries. *)
Lemma sorted_size {V : Type} (m : CharMap.t V) :
  CharMap.sorted m -> (CharMap.size m <= 256)%nat.
Proof.
  intros Hs. unfold CharMap.size.
  assert (H : Z.of_nat (List.length m) <= 127 - (-129)).
  { apply (sorted_size_bound m Hs); [lia|].
    apply Forall_forall. intros e _. pose proof (char_to_int_range (fst e)). lia. }
  lia.
Qed.

Lemma int_table_header (freqTable : CharMap.t Z) (payload : str) :
  int_table freqTable ->
  readHeader (writeHeader freqTable ++ payload) = Some (freqTable, payload).
Proof.
  intros [Hs Hr]. apply readHeader_writeHeader; [assumption..|].
  pose proof (sorted_size freqTable Hs). unfold INT_MAX. lia.
Qed.

(** X5. The header is self-delimiting.  For every table with [int] values,
    whatever bytes the payload starts with (digits, blanks and newlines
    included), [readHeader] gets the table and the payload back from the
    written artifact; hence two artifacts are equal only when both their
    tables and their payloads are. *)
Theorem header_unambiguous (freqTable : CharMap.t Z) (payload : str) :
  int_table freqTable ->
  readHeader (writeHeader freqTable ++ payload) = Some (freqTable, payload) /\
  forall freqTable' payload',
    int_table freqTable' ->
    writeHeader freqTable ++ payload = writeHeader freqTable' ++ payload' ->
    freqTable = freqTable' /\ payload = payload'.
Proof.
  intros Ht. split; [now apply int_table_header|].
  intros freqTable' payload' Ht' E.
  pose proof (int_table_header freqTable payload Ht) as H1.
  pose proof (int_table_header freqTable' payload' Ht') as H2.
  rewrite E, H2 in H1. now injection H1 as -> ->.
Qed.

Section Container.

Context {Q : PriorityQueue}.

(** X6. The header of every artifact is the exact histogram of the input.
    For every non-empty buffer whose length fits an [int], with or without
    0x00 bytes and whatever the number of byte values, the saved artifact
    splits under [readHeader] into the buffer's frequency table and the
    payload, and the frequencies decoded from it add up to the buffer
    length. *)
Theorem compressFile_header_faithful (content : str) :
  content <> [] -> Z.of_nat (List.length content) <= INT_MAX ->
  exists file payload,
    compressFile content = Saved file CompressionSuccessful /\
    readHeader file = Some (buildFrequencyTable content, payload) /\
    totalChars (buildFrequencyTable content) = Z.of_nat (List.length content) /\
    (forall c, In c (CharMap.keys (buildFrequencyTable content)) <-> In c content).
Proof.
  intros Hne Hlen.
  destruct (compressFile_saved content Hne) as (root & payload & _ & _ & _ & _ & _ & Hc).
  exists (writeHeader (buildFrequencyTable content) ++ payload), payload.
  split; [assumption|]. split; [now apply frequency_table_header|].
  split; [now apply buildFrequencyTable_total|]. intros c. apply buildFrequencyTable_keys.
Qed.

(** X7. A header that declares no entry cannot be decoded.  When the first
    number read from the file is zero or negative the table loop does not
    run, the table stays empty, and [buildHuffmanTree] takes [top()] of an
    empty queue: undefined behaviour, whatever follows in the file. *)
Theorem decompressFile_no_entries (file rest : str) (tableSize : Z) :
  read_int file = Some (tableSize, rest) -> tableSize <= 0 ->
  decompressFile file = Undefined.
Proof.
  intros Hread Hn. unfold decompressFile, readHeader. rewrite Hread.
  replace (Z.to_nat tableSize) with 0%nat by lia. cbn [readTable].
  unfold decodePayload. now rewrite buildHuffmanTree_empty.
Qed.

End Container.

(** ** Weights *)

Lemma sum_values_app (m1 m2 : CharMap.t Z) :
  sum_values (m1 ++ m2) = sum_values m1 + sum_values m2.
Proof.
  induction m1 as [|e m1 IH]; [reflexivity|].
  cbn [app]. rewrite !CharMapFacts.sum_values_cons, IH. lia.
Qed.

Lemma sum_values_Permutation (m1 m2 : CharMap.t Z) :
  Permutation m1 m2 -> sum_values m1 = sum_values m2.
Proof.
  induction 1 as [|e m1 m2 _ IH|e1 e2 m|m1 m2 m3 _ IH1 _ IH2];
    rewrite ?CharMapFacts.sum_values_cons; lia.
Qed.

Lemma sum_values_nonneg (m : CharMap.t Z) :
  Forall (fun e => 0 <= snd e) m -> 0 <= sum_values m.
Proof.
  induction 1 as [|e m He _ IH]; [cbn; lia|].
  rewrite CharMapFacts.sum_values_cons. lia.
Qed.

(** Non-negative values that add up to an [int] are [int]s. *)
Lemma nonneg_int_values (m : CharMap.t Z) :
  Forall (fun e => 0 <= snd e) m -> sum_values m <= INT_MAX -> int_values m.
Proof.
  induction 1 as [|e m He Hm IH]; intros Hsum; [constructor|].
  rewrite CharMapFacts.sum_values_cons in Hsum.
  pose proof (sum_values_nonneg m Hm).
  constructor; [unfold INT_MIN; lia|]. apply IH. lia.
Qed.

Lemma weighted_sum t :
  huffman_tree t -> weighted t -> int_values (leaves t) ->
  freq t = wrap_int (sum_values (leaves t)).
Proof.
  induction 1 as [d f|f l r Hl IHl Hr IHr]; intros Hw Hv.
  - inversion Hv as [|? ? Hf _]; subst. cbn in *.
    rewrite Z.add_0_r. now rewrite wrap_int_small.
  - inversion Hw as [|? ? ? ? Hwl Hwr Hf]; subst.
    cbn [leaves] in *. apply Forall_app in Hv. destruct Hv as [Hvl Hvr].
    cbn [freq]. rewrite sum_values_app, (IHl Hwl Hvl), (IHr Hwr Hvr).
    unfold int_add. now rewrite wrap_int_add_l, wrap_int_add_r.
Qed.

(** Without overflow the weight of a tree is the sum of its leaves. *)
Lemma weighted_exact t :
  huffman_tree t -> weighted t ->
  Forall (fun e => 0 <= snd e) (leaves t) -> sum_values (leaves t) <= INT_MAX ->
  freq t = sum_values (leaves t).
Proof.
  intros Ht Hw Hpos Hsum.
  rewrite (weighted_sum t Ht Hw (nonneg_int_values _ Hpos Hsum)).
  apply wrap_int_small. pose proof (sum_values_nonneg _ Hpos). unfold INT_MIN. lia.
Qed.

Lemma subnode_weighted n t : subnode n t -> weighted t -> weighted n.
Proof.
  induction 1 as [t|n t l Hl Hsub IH|n t r Hr Hsub IH]; intros Hw; [assumption| |];
    destruct Hw as [d f|d f a b Ha Hb Hf]; simpl in *; try discriminate;
    apply IH; congruence.
Qed.

(** The leaves below a node are among the leaves of the tree. *)
Lemma subnode_leaves_sum n t :
  subnode n t -> huffman_tree t ->
  Forall (fun e => 0 <= snd e) (leaves t) ->
  Forall (fun e => 0 <= snd e) (leaves n) /\
  sum_values (leaves n) <= sum_values (leaves t).
Proof.
  induction 1 as [t|n t l Hl Hsub IH|n t r Hr Hsub IH]; intros Ht Hpos.
  - split; [assumption|lia].
  - destruct Ht as [d f|f a b Ha Hb]; simpl in Hl; [discriminate|].
    injection Hl as ->. cbn [leaves] in Hpos. apply Forall_app in Hpos.
    destruct Hpos as [Hpa Hpb]. destruct (IH Ha Hpa) as [H1 H2].
    split; [assumption|]. cbn [leaves]. rewrite sum_values_app.
    pose proof (sum_values_nonneg _ Hpb). lia.
  - destruct Ht as [d f|f a b Ha Hb]; simpl in Hr; [discriminate|].
    injection Hr as ->. cbn [leaves] in Hpos. apply Forall_app in Hpos.
    destruct Hpos as [Hpa Hpb]. destruct (IH Hb Hpb) as [H1 H2].
    split; [assumption|]. cbn [leaves]. rewrite sum_values_app.
    pose proof (sum_values_nonneg _ Hpa). lia.
Qed.

Section Weights.

Context {Q : PriorityQueue}.

(** Whatever the leaves satisfy and combining keeps, the returned tree
    satisfies. *)
Lemma combineNodes_preserves (P : HuffmanNode -> Prop) :
  (forall l r, P l -> P r ->
               P (mkNode NUL (int_add (freq l) (freq r)) (Some l) (Some r))) ->
  forall fuel (q : pq) t,
  Forall P (pq_elements q) -> combineNodes fuel q = Some t -> P t.
Proof.
  intros Hstep. induction fuel as [|fuel IH]; intros q t Hall; cbn [combineNodes].
  - destruct (pq_size q <=? 1)%nat; [|discriminate].
    intros Htop. pose proof (pq_top_spec q) as Hs. rewrite Htop in Hs.
    destruct Hs as [Hperm _]. rewrite Forall_forall in Hall. apply Hall.
    eapply Permutation_in; [symmetry; exact Hperm|]. now left.
  - destruct (pq_size q <=? 1)%nat.
    + intros Htop. pose proof (pq_top_spec q) as Hs. rewrite Htop in Hs.
      destruct Hs as [Hperm _]. rewrite Forall_forall in Hall. apply Hall.
      eapply Permutation_in; [symmetry; exact Hperm|]. now left.
    + pose proof (pq_top_spec q) as Hs.
      destruct (pq_top q) as [l|]; [|discriminate]. destruct Hs as [Hperm _].
      pose proof (pq_top_spec (pq_pop q)) as Hs1.
      destruct (pq_top (pq_pop q)) as [r|]; [|discriminate]. destruct Hs1 as [Hperm1 _].
      eapply Permutation_Forall in Hall; [|exact Hperm].
      inversion Hall as [|? ? Hl Hall1]; subst.
      eapply Permutation_Forall in Hall1; [|exact Hperm1].
      inversion Hall1 as [|? ? Hr Hall2]; subst.
      apply IH. eapply Permutation_Forall; [symmetry; apply pq_push_spec|].
      constructor; [now apply Hstep|assumption].
Qed.

Lemma buildHuffmanTree_preserves (P : HuffmanNode -> Prop) (freqTable : CharMap.t Z) t :
  (forall k v, In (k, v) freqTable -> P (newNode k v)) ->
  (forall l r, P l -> P r ->
               P (mkNode NUL (int_add (freq l) (freq r)) (Some l) (Some r))) ->
  buildHuffmanTree freqTable = Some t -> P t.
Proof.
  intros Hleaf Hstep. unfold buildHuffmanTree.
  apply (combineNodes_preserves P Hstep).
  pose proof (pushLeaves_elements freqTable pq_empty) as HP.
  rewrite pq_empty_spec, app_nil_r in HP.
  eapply Permutation_Forall; [symmetry; exact HP|].
  apply Forall_forall. intros n Hn. apply in_map_iff in Hn.
  destruct Hn as [[k v] [<- Hin]]. now apply Hleaf.
Qed.

(** X8. Weights add up, as [int]s.  In the tree built from any non-empty
    table of [int]s every node with children weighs the [int] sum of its
    two children, and the root weighs [totalChars], the number
    [decompressFile] uses as its symbol count: both are the sum of all
    frequencies modulo 2^32, whatever overflows on the way.  When the
    frequencies are non-negative and their sum is at most [INT_MAX], as in
    the table of every buffer whose length fits an [int], nothing overflows:
    the root weighs the sum of the frequencies and every node the sum of its
    children. *)
Theorem buildHuffmanTree_weights (freqTable : CharMap.t Z) :
  freqTable <> [] -> int_values freqTable ->
  exists root,
    buildHuffmanTree freqTable = Some root /\
    freq root = totalChars freqTable /\
    (forall n l r, subnode n root -> left n = Some l -> right n = Some r ->
                   freq n = int_add (freq l) (freq r)) /\
    (Forall (fun e => 0 <= snd e) freqTable -> sum_values freqTable <= INT_MAX ->
     freq root = sum_values freqTable /\
     forall n l r, subnode n root -> left n = Some l -> right n = Some r ->
                   freq n = freq l + freq r).
Proof.
  intros Hne Hint.
  destruct (buildHuffmanTree_spec freqTable Hne) as (root & Hb & Ht & Hp).
  assert (Hw : weighted root).
  { apply (buildHuffmanTree_preserves weighted freqTable root); [| |assumption].
    - intros k v _. constructor.
    - intros l r Hl Hr. now constructor. }
  assert (Hstep : forall n l r, subnode n root -> left n = Some l -> right n = Some r ->
                                freq n = int_add (freq l) (freq r)).
  { intros n l r Hsub Hl Hr. apply (subnode_weighted n root Hsub) in Hw.
    destruct Hw as [d f|d f a b Ha Hb' Hf]; simpl in *; [discriminate|].
    congruence. }
  exists root. split; [assumption|]. split; [|split; [exact Hstep|]].
  - rewrite (weighted_sum root Ht Hw), totalChars_wrap.
    + f_equal. now apply sum_values_Permutation.
    + eapply Permutation_Forall; [symmetry; exact Hp|exact Hint].
  - intros Hpos Hsum.
    assert (Hpos' : Forall (fun e => 0 <= snd e) (leaves root))
      by (eapply Permutation_Forall; [symmetry; exact Hp|exact Hpos]).
    assert (Hsum' : sum_values (leaves root) <= INT_MAX)
      by now rewrite (sum_values_Permutation _ _ Hp).
    split.
    + rewrite (weighted_exact root Ht Hw Hpos' Hsum').
      now apply sum_values_Permutation.
    + intros n l r Hsub Hl Hr.
      destruct (subnode_leaves_sum n root Hsub Ht Hpos') as [Hpn Hsn].
      pose proof (subnode_huffman_tree n root Hsub Ht) as Htn.
      pose proof (subnode_weighted n root Hsub Hw) as Hwn.
      rewrite (Hstep n l r Hsub Hl Hr).
      destruct Htn as [d f|f a b Ha Hb']; simpl in Hl, Hr; [discriminate|].
      injection Hl as ->. injection Hr as ->.
      inversion Hwn as [|? ? ? ? Hwl Hwr _]; subst.
      cbn [leaves] in Hpn, Hsn. apply Forall_app in Hpn. destruct Hpn as [Hpl Hpr].
      rewrite sum_values_app in Hsn.
      pose proof (sum_values_nonneg _ Hpl). pose proof (sum_values_nonneg _ Hpr).
      rewrite (weighted_exact l Ha Hwl Hpl), (weighted_exact r Hb' Hwr Hpr) by lia.
      apply int_add_small. unfold INT_MIN. lia.
Qed.

End Weights.

(** ** Codes and the symbols the decoder can emit *)

Lemma codeword_depth t :
  huffman_tree t -> forall c q,
  In (c, q) (codewords t) -> (List.length q + 1 <= List.length (leaves t))%nat.
Proof.
  induction 1 as [d f|f l r Hl IHl Hr IHr]; intros c q Hin; cbn [codewords leaves] in *.
  - destruct Hin as [[= <- <-]|[]]. simpl. lia.
  - pose proof (leaves_nonempty l Hl) as Hnl. pose proof (leaves_nonempty r Hr) as Hnr.
    rewrite length_app.
    apply in_app_or in Hin. destruct Hin as [Hin|Hin];
      apply in_map_iff in Hin; destruct Hin as [[c' q'] [[= -> <-] Hin]];
      [apply IHl in Hin|apply IHr in Hin];
      destruct (leaves l), (leaves r); simpl in *; try contradiction; lia.
Qed.

Lemma codeword_nonempty t :
  huffman_tree t -> is_leaf t = false -> forall c q,
  In (c, q) (codewords t) -> q <> [].
Proof.
  destruct 1 as [d f|f l r Hl Hr]; [discriminate|]. intros _ c q Hin.
  cbn [codewords] in Hin. apply in_app_or in Hin.
  destruct Hin as [Hin|Hin]; apply in_map_iff in Hin;
    destruct Hin as [[c' q'] [[= _ <-] _]]; discriminate.
Qed.

Lemma subnode_left n t x : subnode n t -> left n = Some x -> subnode x t.
Proof.
  induction 1 as [t|n t l Hl Hsub IH|n t r Hr Hsub IH]; intros Hx.
  - eapply sub_left; [exact Hx|constructor].
  - eapply sub_left; [exact Hl|auto].
  - eapply sub_right; [exact Hr|auto].
Qed.

Lemma subnode_right n t x : subnode n t -> right n = Some x -> subnode x t.
Proof.
  induction 1 as [t|n t l Hl Hsub IH|n t r Hr Hsub IH]; intros Hx.
  - eapply sub_right; [exact Hx|constructor].
  - eapply sub_left; [exact Hl|auto].
  - eapply sub_right; [exact Hr|auto].
Qed.

Lemma subnode_leaf_symbol n t :
  subnode n t -> huffman_tree t -> is_leaf n = true ->
  In (data n) (map fst (leaves t)).
Proof.
  induction 1 as [t|n t l Hl Hsub IH|n t r Hr Hsub IH]; intros Ht Hn.
  - destruct Ht as [d f|f a b Ha Hb]; [now left|discriminate].
  - destruct Ht as [d f|f a b Ha Hb]; simpl in Hl; [discriminate|].
    injection Hl as ->. cbn [leaves]. rewrite map_app. apply in_or_app. left. auto.
  - destruct Ht as [d f|f a b Ha Hb]; simpl in Hr; [discriminate|].
    injection Hr as ->. cbn [leaves]. rewrite map_app. apply in_or_app. right. auto.
Qed.

Lemma walkAll_symbols root :
  huffman_tree root -> forall encoded current,
  subnode current root ->
  Forall (fun c => In c (map fst (leaves root))) (walkAll root current encoded).
Proof.
  intros Ht. induction encoded as [|bit rest IH]; intros current Hsub;
    cbn [walkAll]; [constructor|].
  destruct (if char_eqb bit c0 then left current else right current) as [next|] eqn:E;
    [|constructor].
  assert (Hnext : subnode next root).
  { destruct (char_eqb bit c0);
      [eapply subnode_left|eapply subnode_right]; eassumption. }
  destruct (is_leaf next) eqn:El.
  - constructor; [now apply subnode_leaf_symbol|]. apply IH. constructor.
  - now apply IH.
Qed.

Lemma walkAll_length root : forall encoded current,
  (List.length (walkAll root current encoded) <= List.length encoded)%nat.
Proof.
  induction encoded as [|bit rest IH]; intros current; cbn [walkAll List.length];
    [lia|].
  destruct (if char_eqb bit c0 then left current else right current) as [next|];
    [|simpl; lia].
  destruct (is_leaf next).
  - specialize (IH root). cbn [List.length]. lia.
  - specialize (IH next). lia.
Qed.

Lemma In_firstn {A : Type} (n : nat) (l : list A) (x : A) :
  In x (firstn n l) -> In x l.
Proof.
  intros H. rewrite <- (firstn_skipn n l). apply in_or_app. now left.
Qed.

(** With a missing entry for 0x00, its occurrences leave no trace in the
    bit string: walking the encoded content gives the other bytes back. *)
Lemma walkAll_content_filter root (codes : CharMap.t (list ascii)) :
  huffman_tree root -> is_leaf root = false ->
  codeOf codes NUL = [] ->
  forall content rest,
  (forall c, In c content -> c <> NUL -> In (c, codeOf codes c) (codewords root)) ->
  walkAll root root (flat_map (codeOf codes) content ++ rest) =
  filter not_NUL content ++ walkAll root root rest.
Proof.
  intros Ht Hint Hnul. induction content as [|c content IH]; intros rest Hcodes;
    [reflexivity|].
  cbn [flat_map filter]. unfold not_NUL at 1.
  destruct (char_eqb c NUL) eqn:E; cbn [negb].
  - apply char_eqb_eq in E. subst c. rewrite Hnul. cbn [app].
    apply IH. intros c' Hc'. apply Hcodes. now right.
  - apply char_eqb_neq in E. rewrite <- app_assoc.
    rewrite (walkAll_codeword root root Ht Hint c _ _ (Hcodes c (or_introl eq_refl) E)).
    cbn [app]. f_equal. apply IH. intros c' Hc'. apply Hcodes. now right.
Qed.

Section Codes.

Context {Q : PriorityQueue}.

(** X9. What a code is.  For every table with at least two symbols, each
    symbol other than 0x00 has a code in the table that
    [generateHuffmanCodes] fills: a string of '0' and '1' of at least one
    and at most (number of symbols - 1) characters, and walking exactly
    that string from the root decodes to the symbol. *)
Theorem generateHuffmanCodes_codes (freqTable : CharMap.t Z) (c : char) :
  CharMap.sorted freqTable -> (2 <= CharMap.size freqTable)%nat ->
  In c (CharMap.keys freqTable) -> c <> NUL ->
  exists root code,
    buildHuffmanTree freqTable = Some root /\
    CharMap.find c (generateHuffmanCodes (Some root) [] CharMap.empty) = Some code /\
    (1 <= List.length code <= CharMap.size freqTable - 1)%nat /\
    Forall is_bit code /\
    walkAll root root code = [c].
Proof.
  intros Hs Hsize Hin Hc.
  destruct (buildHuffmanTree_spec freqTable) as (root & Hb & Ht & Hp).
  { intros ->. simpl in Hsize. lia. }
  destruct (buildHuffmanTree_root_internal freqTable root Hsize Ht Hp) as [Hint _].
  pose proof (codeOf_codeword freqTable root c Ht Hp
                (CharMapFacts.sorted_NoDup freqTable Hs) Hin Hc) as Hcw.
  pose proof (codeOf_bits root c) as Hbits.
  set (codes := generateHuffmanCodes (Some root) [] CharMap.empty) in *.
  assert (Hfind : CharMap.find c codes <> None).
  { apply (generateHuffmanCodes_node_covers root Ht); [|assumption].
    rewrite (codewords_keys root Ht).
    eapply Permutation_in; [symmetry; apply Permutation_map; exact Hp|exact Hin]. }
  rewrite codeOf_find in Hcw, Hbits.
  destruct (CharMap.find c codes) as [code|] eqn:Ef; [|contradiction].
  exists root, code. split; [assumption|]. split; [exact Ef|].
  repeat split; try assumption.
  - pose proof (codeword_nonempty root Ht Hint c code Hcw).
    destruct code; [contradiction|simpl; lia].
  - pose proof (codeword_depth root Ht c code Hcw) as Hd.
    rewrite (Permutation_length Hp) in Hd. unfold CharMap.size. lia.
  - rewrite <- (app_nil_r code).
    now rewrite (walkAll_codeword root root Ht Hint c code [] Hcw).
Qed.

(** X10. The decoder stays inside the header's alphabet.  For every header
    with at least two symbols and every payload, [decodePayload] succeeds,
    each byte it emits is a symbol of the header table, and with a positive
    frequency sum it never emits more bytes than that sum. *)
Theorem decodePayload_alphabet (freqTable : CharMap.t Z) (payload : str) :
  (2 <= CharMap.size freqTable)%nat ->
  exists out,
    decodePayload freqTable payload = Saved out DecompressionSuccessful /\
    Forall (fun c => In c (CharMap.keys freqTable)) out /\
    (0 < totalChars freqTable -> Z.of_nat (List.length out) <= totalChars freqTable).
Proof.
  intros Hsize.
  destruct (decodePayload_spec freqTable payload Hsize) as (root & Hb & Ht & Hint & Hd).
  cbv zeta in Hd. rewrite Hd. eexists. split; [reflexivity|].
  assert (Hp : Permutation (leaves root) freqTable).
  { destruct (buildHuffmanTree_spec freqTable) as (root' & Hb' & _ & Hp).
    - intros ->. simpl in Hsize. lia.
    - rewrite Hb in Hb'. now injection Hb' as <-. }
  pose proof (walkAll_symbols root Ht (flat_map bitset_to_string payload) root
                (sub_refl root)) as Hall.
  assert (Hkeys : forall x, In x (map fst (leaves root)) -> In x (CharMap.keys freqTable)).
  { intros x Hx. eapply Permutation_in; [apply Permutation_map; exact Hp|exact Hx]. }
  rewrite Forall_forall in Hall. split.
  - apply Forall_forall. intros x Hx. apply Hkeys, Hall. eapply In_firstn; exact Hx.
  - intros Hpos. rewrite stop_after_total, length_firstn by assumption. lia.
Qed.

(** Compressing, then decompressing: the output is cut out of the bytes
    other than 0x00 followed by what the padding decodes to. *)
Lemma decompress_compress (content : str) (a b : char) :
  In a content -> In b content -> a <> b ->
  Z.of_nat (List.length content) <= INT_MAX ->
  exists file W,
    compressFile content = Saved file CompressionSuccessful /\
    decompressFile file =
      Saved (firstn (List.length content) (filter not_NUL content ++ W))
            DecompressionSuccessful /\
    (List.length W <= 7)%nat.
Proof.
  intros Ha Hb Hab Hlen.
  assert (Hne : content <> []) by (intros ->; contradiction).
  destruct (compressFile_saved content Hne)
    as (root & payload & Hbuild & Ht & Hp & _ & Hback & Hc).
  cbv zeta in Hback.
  set (freqTable := buildFrequencyTable content) in *.
  set (codes := generateHuffmanCodes (Some root) [] CharMap.empty) in *.
  assert (Hsize := two_symbols_size content a b Hab Ha Hb). fold freqTable in Hsize.
  destruct (decodePayload_spec freqTable payload Hsize)
    as (root' & Hbuild' & _ & Hint & Hd).
  rewrite Hbuild in Hbuild'. injection Hbuild' as <-.
  pose proof (buildFrequencyTable_NoDup content) as Hnd.
  pose proof (buildFrequencyTable_total content Hlen) as Htotal.
  fold freqTable in Hnd, Htotal.
  assert (Hpos : 0 < Z.of_nat (List.length content))
    by (destruct content; [contradiction|simpl; lia]).
  assert (Hwalk : walkAll root root (flat_map bitset_to_string payload) =
                  filter not_NUL content ++
                  walkAll root root
                    (repeat c0 (paddingOf (List.length (encodeContent content codes))))).
  { rewrite Hback, addPadding_spec, encodeContent_flat_map.
    apply (walkAll_content_filter root codes Ht Hint).
    - rewrite codeOf_find. unfold codes. simpl.
      now rewrite generateHuffmanCodes_node_NUL.
    - intros c Hc' Hnz. apply (codeOf_codeword freqTable); try assumption.
      now apply buildFrequencyTable_keys. }
  exists (writeHeader freqTable ++ payload),
         (walkAll root root
            (repeat c0 (paddingOf (List.length (encodeContent content codes))))).
  split; [assumption|]. split.
  - unfold decompressFile. subst freqTable.
    rewrite frequency_table_header by assumption.
    rewrite Hd. cbv zeta. rewrite stop_after_total, Htotal by lia.
    now rewrite Nat2Z.id, Hwalk.
  - pose proof (walkAll_length root
                  (repeat c0 (paddingOf (List.length (encodeContent content codes)))) root) as Hw.
    rewrite repeat_length in Hw.
    destruct (paddingOf_spec (List.length (encodeContent content codes))) as [Hlt _].
    lia.
Qed.

(** X11. What a round trip keeps.  For every buffer with at least two
    different byte values whose length fits an [int], decoding the saved
    artifact gives the bytes of the buffer other than 0x00, in their order,
    followed by at most seven bytes decoded from the padding; the output
    is never longer than the buffer. *)
Theorem round_trip_keeps (content : str) (a b : char) :
  In a content -> In b content -> a <> b ->
  Z.of_nat (List.length content) <= INT_MAX ->
  exists file out tail,
    compressFile content = Saved file CompressionSuccessful /\
    decompressFile file = Saved out DecompressionSuccessful /\
    out = filter not_NUL content ++ tail /\
    (List.length tail <= 7)%nat /\
    (List.length out <= List.length content)%nat.
Proof.
  intros Ha Hb Hab Hlen.
  destruct (decompress_compress content a b Ha Hb Hab Hlen) as (file & W & Hc & Hd & HW).
  pose proof (filter_length_le not_NUL content) as Hfl.
  exists file,
         (firstn (List.length content) (filter not_NUL content ++ W)),
         (firstn (List.length content - List.length (filter not_NUL content)) W).
  split; [assumption|]. split; [assumption|]. split; [|split].
  - rewrite firstn_app. f_equal. now apply firstn_all2.
  - rewrite length_firstn. lia.
  - rewrite length_firstn. lia.
Qed.

End Codes.

(** ** The two rarest symbols *)

Lemma subnode_trans a b c : subnode a b -> subnode b c -> subnode a c.
Proof.
  intros Hab Hbc. induction Hbc as [t|n t l Hl Hsub IH|n t r Hr Hsub IH].
  - assumption.
  - eapply sub_left; [exact Hl|auto].
  - eapply sub_right; [exact Hr|auto].
Qed.

(** The paths below a node, seen from the top of the tree, all start with
    the path to that node. *)
Lemma subnode_codewords n t :
  subnode n t -> huffman_tree t ->
  exists p, forall c q, In (c, q) (codewords n) -> In (c, p ++ q) (codewords t).
Proof.
  induction 1 as [t|n t l Hl Hsub IH|n t r Hr Hsub IH]; intros Ht.
  - now exists [].
  - destruct Ht as [d f|f a b Ha Hb]; simpl in Hl; [discriminate|].
    injection Hl as ->. destruct (IH Ha) as [p Hp].
    exists (c0 :: p). intros c q Hin. cbn [codewords app].
    apply in_or_app. left. apply in_map_iff. exists (c, p ++ q). split; [reflexivity|auto].
  - destruct Ht as [d f|f a b Ha Hb]; simpl in Hr; [discriminate|].
    injection Hr as ->. destruct (IH Hb) as [p Hp].
    exists (c1 :: p). intros c q Hin. cbn [codewords app].
    apply in_or_app. right. apply in_map_iff. exists (c, p ++ q). split; [reflexivity|auto].
Qed.

Section Siblings.

Context {Q : PriorityQueue}.

Lemma pq_top_min (q : pq) (x : HuffmanNode) :
  pq_top q = Some x ->
  Permutation (pq_elements q) (x :: pq_elements (pq_pop q)) /\
  Forall (fun y => freq x <= freq y) (pq_elements q).
Proof.
  intros Htop. pose proof (pq_top_spec q) as Hs. rewrite Htop in Hs.
  destruct Hs as [Hp Hall]. split; [assumption|].
  eapply Forall_impl; [|exact Hall]. intros y Hy.
  now apply NodeComparator_false.
Qed.

(** Every node that is in the queue ends up in the tree. *)
Lemma combineNodes_contains : forall fuel (q : pq) t x,
  combineNodes fuel q = Some t -> In x (pq_elements q) -> subnode x t.
Proof.
  assert (Hone : forall (q : pq) t x,
             (pq_size q <= 1)%nat -> pq_top q = Some t -> In x (pq_elements q) ->
             subnode x t).
  { intros q t x Hsize Htop Hin. destruct (pq_top_min q t Htop) as [Hp _].
    rewrite pq_size_spec, (Permutation_length Hp) in Hsize.
    eapply Permutation_in in Hin; [|exact Hp].
    destruct (pq_elements (pq_pop q)); [|simpl in Hsize; lia].
    destruct Hin as [<-|[]]. constructor. }
  induction fuel as [|fuel IH]; intros q t x; cbn [combineNodes].
  - destruct (Nat.leb_spec (pq_size q) 1); [|discriminate]. now apply Hone.
  - destruct (Nat.leb_spec (pq_size q) 1); [now apply Hone|].
    destruct (pq_top q) as [l|] eqn:Hl; [|discriminate].
    destruct (pq_top (pq_pop q)) as [r|] eqn:Hr; [|discriminate].
    destruct (pq_top_min q l Hl) as [Hp _].
    destruct (pq_top_min (pq_pop q) r Hr) as [Hp1 _].
    intros Hc Hin.
    set (N := mkNode NUL (int_add (freq l) (freq r)) (Some l) (Some r)) in *.
    assert (HN : subnode N t).
    { apply (IH _ _ N Hc). eapply Permutation_in; [symmetry; apply pq_push_spec|].
      now left. }
    eapply Permutation_in in Hin; [|exact Hp]. destruct Hin as [<-|Hin].
    + apply (subnode_trans l N t); [|assumption].
      eapply sub_left; [reflexivity|constructor].
    + eapply Permutation_in in Hin; [|exact Hp1]. destruct Hin as [<-|Hin].
      * apply (subnode_trans r N t); [|assumption].
        eapply sub_right; [reflexivity|constructor].
      * apply (IH _ _ x Hc). eapply Permutation_in; [symmetry; apply pq_push_spec|].
        now right.
Qed.

(** X14. The two rarest symbols are siblings.  For every table with at
    least two symbols there are two entries, the second no more frequent
    than any of the others and the first no more frequent than the second,
    whose leaves hang under one node: their codes (for a symbol other than
    0x00) are one common string followed by '0' for the first and '1' for
    the second. *)
Theorem rarest_symbols_siblings (freqTable : CharMap.t Z) :
  CharMap.sorted freqTable -> (2 <= CharMap.size freqTable)%nat ->
  exists root a fa b fb others p,
    buildHuffmanTree freqTable = Some root /\
    Permutation freqTable ((a, fa) :: (b, fb) :: others) /\
    fa <= fb /\ Forall (fun e => fb <= snd e) others /\
    let huffmanCodes := generateHuffmanCodes (Some root) [] CharMap.empty in
    (a <> NUL -> CharMap.find a huffmanCodes = Some (p ++ [c0])) /\
    (b <> NUL -> CharMap.find b huffmanCodes = Some (p ++ [c1])).
Proof.
  intros Hs Hsize.
  destruct (buildHuffmanTree_spec freqTable) as (root & Hb & Ht & Hp).
  { intros ->. simpl in Hsize. lia. }
  pose proof Hb as Hrun. unfold buildHuffmanTree in Hrun.
  destruct (forest_pushLeaves freqTable) as [_ Hqsize].
  pose proof (pushLeaves_elements freqTable pq_empty) as Helems.
  rewrite pq_empty_spec, app_nil_r in Helems. fold (pushLeaves freqTable) in Helems.
  set (q := pushLeaves freqTable) in *.
  unfold CharMap.size in Hsize.
  destruct (pq_size q) as [|fuel] eqn:Efuel; [lia|].
  cbn [combineNodes] in Hrun. rewrite Efuel in Hrun.
  destruct (Nat.leb_spec (S fuel) 1); [lia|].
  destruct (pq_top q) as [l|] eqn:Hl; [|discriminate].
  destruct (pq_top (pq_pop q)) as [r|] eqn:Hr; [|discriminate].
  destruct (pq_top_min q l Hl) as [Hperm Hmin].
  destruct (pq_top_min (pq_pop q) r Hr) as [Hperm1 Hmin1].
  set (N := mkNode NUL (int_add (freq l) (freq r)) (Some l) (Some r)) in *.
  assert (HN : subnode N root).
  { apply (combineNodes_contains _ _ root N Hrun).
    eapply Permutation_in; [symmetry; apply pq_push_spec|]. now left. }
  assert (Hall : Permutation (map (fun pair => newNode (fst pair) (snd pair)) freqTable)
                   (l :: r :: pq_elements (pq_pop (pq_pop q)))).
  { rewrite <- Helems, Hperm. now constructor. }
  assert (Hleaf : forall n, In n (l :: r :: pq_elements (pq_pop (pq_pop q))) ->
                            n = newNode (data n) (freq n)).
  { intros n Hn. eapply Permutation_in in Hn; [|symmetry; exact Hall].
    apply in_map_iff in Hn. now destruct Hn as [[k v] [<- _]]. }
  assert (Hentries : Permutation freqTable
                       (map (fun n => (data n, freq n))
                            (l :: r :: pq_elements (pq_pop (pq_pop q))))).
  { rewrite <- Hall, map_map. simpl. rewrite <- (map_id freqTable) at 1.
    apply Permutation_refl'. apply map_ext. now intros [k v]. }
  cbn [map] in Hentries.
  exists root, (data l), (freq l), (data r), (freq r),
         (map (fun n => (data n, freq n)) (pq_elements (pq_pop (pq_pop q)))).
  destruct (subnode_codewords N root HN Ht) as [p Hpaths].
  exists p. split; [assumption|]. split; [assumption|]. split; [|split].
  - rewrite Forall_forall in Hmin. apply Hmin.
    eapply Permutation_in; [symmetry; exact Hperm|]. right.
    eapply Permutation_in; [symmetry; exact Hperm1|]. now left.
  - apply Forall_forall. intros e He. apply in_map_iff in He.
    destruct He as [n [<- Hn]]. simpl.
    rewrite Forall_forall in Hmin1. apply Hmin1.
    eapply Permutation_in; [symmetry; exact Hperm1|]. now right.
  - assert (Hnd : NoDup (map fst (codewords root))).
    { rewrite (codewords_keys root Ht).
      eapply Permutation_NoDup; [symmetry; apply Permutation_map; exact Hp|].
      now apply CharMapFacts.sorted_NoDup. }
    assert (Hcw : codewords N = [(data l, [c0]); (data r, [c1])]).
    { unfold N. rewrite (Hleaf l), (Hleaf r) by (simpl; tauto). reflexivity. }
    cbv zeta. split; intros Hne; simpl.
    + apply (generateHuffmanCodes_node_leaf root Ht [] CharMap.empty (data l) (p ++ [c0]) Hnd);
        [|assumption].
      apply Hpaths. rewrite Hcw. now left.
    + apply (generateHuffmanCodes_node_leaf root Ht [] CharMap.empty (data r) (p ++ [c1]) Hnd);
        [|assumption].
      apply Hpaths. rewrite Hcw. right. now left.
Qed.

End Siblings.

(** ** The size of the payload, from the table *)

Lemma table_sum_cons f e (m : CharMap.t Z) :
  table_sum f (e :: m) = snd e * f (fst e) + table_sum f m.
Proof. reflexivity. Qed.

Lemma table_sum_set f k v (m : CharMap.t Z) :
  CharMap.sorted m ->
  table_sum f (CharMap.set k v m) =
  table_sum f m
  - match CharMap.find k m with Some old => old | None => 0 end * f k + v * f k.
Proof.
  intros Hs. induction Hs as [|k0 v0 m Hall Hs IH].
  - cbn. lia.
  - assert (Hs' : CharMap.sorted ((k0, v0) :: m)) by now constructor.
    cbn [CharMap.set]. destruct (char_eqb k k0) eqn:E.
    + apply char_eqb_eq in E. subst k0.
      cbn [CharMap.find]. rewrite char_eqb_refl, !table_sum_cons. cbn [fst snd]. lia.
    + destruct (Z.ltb_spec (char_to_int k) (char_to_int k0)).
      * rewrite (CharMapFacts.sorted_head_find k k0 v0 m Hs') by assumption.
        rewrite !table_sum_cons. cbn [fst snd]. lia.
      * cbn [CharMap.find]. rewrite E, !table_sum_cons, IH. cbn [fst snd]. lia.
Qed.

Lemma table_sum_increment f c (m : CharMap.t Z) :
  CharMap.sorted m ->
  table_sum f (increment c m) =
  table_sum f m
  + (int_add (match CharMap.find c m with Some v => v | None => 0 end) 1
     - match CharMap.find c m with Some v => v | None => 0 end) * f c.
Proof.
  intros Hs. unfold increment, CharMap.subscript.
  destruct (CharMap.find c m) eqn:E.
  - rewrite table_sum_set, E by assumption. lia.
  - rewrite table_sum_set by now apply CharMapFacts.sorted_set.
    rewrite CharMapFacts.find_set_eq, table_sum_set, E by assumption. lia.
Qed.

Lemma table_sum_fold f (content : str) : forall seen m,
  counts seen m -> Z.of_nat (List.length (seen ++ content)) <= INT_MAX ->
  table_sum f (fold_left (fun freqTable c => increment c freqTable) content m) =
  table_sum f m + sum_over f content.
Proof.
  induction content as [|c content IH]; intros seen m Hc Hlen;
    cbn [fold_left sum_over fold_right].
  - lia.
  - replace (seen ++ c :: content) with ((seen ++ [c]) ++ content) in Hlen
      by now rewrite <- app_assoc.
    rewrite (IH (seen ++ [c])) by (try apply counts_step; assumption).
    destruct Hc as (Hs & _ & Hfind).
    rewrite table_sum_increment, Hfind by assumption.
    rewrite !length_app in Hlen. cbn [List.length] in Hlen.
    pose proof (occurrences_length c seen) as Ho.
    assert (E : int_add (if occurrences c seen =? 0 then 0
                         else wrap_int (occurrences c seen)) 1
                = (if occurrences c seen =? 0 then 0
                   else wrap_int (occurrences c seen)) + 1).
    { destruct (Z.eqb_spec (occurrences c seen) 0).
      - apply int_add_small. unfold INT_MIN, INT_MAX. lia.
      - rewrite wrap_int_small by (unfold INT_MIN, INT_MAX in *; lia).
        apply int_add_small. unfold INT_MIN, INT_MAX in *. lia. }
    destruct (Z.eqb_spec (occurrences c seen) 0); rewrite E; unfold sum_over; lia.
Qed.

(** Summing over the buffer is summing over its table, each symbol as many
    times as it occurs. *)
Lemma table_sum_table f (content : str) :
  Z.of_nat (List.length content) <= INT_MAX ->
  table_sum f (buildFrequencyTable content) = sum_over f content.
Proof.
  intros Hlen. unfold buildFrequencyTable.
  rewrite (table_sum_fold f content [] CharMap.empty counts_empty Hlen).
  cbn. lia.
Qed.

Lemma sum_over_lengths (codes : CharMap.t (list ascii)) (content : str) :
  sum_over (code_length codes) content =
  Z.of_nat (List.length (flat_map (codeOf codes) content)).
Proof.
  induction content as [|c content IH]; [reflexivity|].
  cbn [sum_over fold_right flat_map]. fold (sum_over (code_length codes) content).
  rewrite IH, length_app. unfold code_length. lia.
Qed.

Section PayloadSize.

Context {Q : PriorityQueue}.

(** X15. The size of the artifact follows from its header and the code
    lengths.  For every non-empty buffer whose length fits an [int], the
    payload written has ceil(B / 8) bytes, where B is the sum over the
    entries of the frequency table of frequency times code length (the code
    of 0x00 counting as empty). *)
Theorem compressFile_payload_size (content : str) :
  content <> [] -> Z.of_nat (List.length content) <= INT_MAX ->
  exists root payload,
    buildHuffmanTree (buildFrequencyTable content) = Some root /\
    compressFile content =
      Saved (writeHeader (buildFrequencyTable content) ++ payload)
            CompressionSuccessful /\
    Z.of_nat (List.length payload) =
      (table_sum (code_length (generateHuffmanCodes (Some root) [] CharMap.empty))
                    (buildFrequencyTable content) + 7) / 8.
Proof.
  intros Hne Hint.
  destruct (compressFile_saved content Hne)
    as (root & payload & Hb & _ & _ & Hlen & _ & Hc).
  exists root, payload. split; [assumption|]. split; [assumption|].
  cbv zeta in Hlen.
  set (codes := generateHuffmanCodes (Some root) [] CharMap.empty) in *.
  rewrite table_sum_table, sum_over_lengths, <- encodeContent_flat_map by assumption.
  rewrite addPadding_spec, length_app, repeat_length in Hlen.
  destruct (paddingOf_spec (List.length (encodeContent content codes))) as [_ Hsum].
  rewrite Hsum in Hlen.
  assert (E : List.length payload = ((List.length (encodeContent content codes) + 7) / 8)%nat)
    by lia.
  rewrite E, Nat2Z.inj_div, Nat2Z.inj_add. reflexivity.
Qed.

End PayloadSize.

(** ** Bytes and bits *)

Lemma bitset_of_to_string (byte : char) :
  bitset_of_string (bitset_to_string byte) 0 = Some (Z.of_N (N_of_ascii byte)).
Proof.
  destruct byte as [b0 b1 b2 b3 b4 b5 b6 b7].
  destruct b0, b1, b2, b3, b4, b5, b6, b7; reflexivity.
Qed.

Lemma int_to_char_of_ascii (byte : char) : int_to_char (Z.of_N (N_of_ascii byte)) = byte.
Proof.
  unfold int_to_char. pose proof (N_of_ascii_bound byte).
  rewrite Z.mod_small by lia. rewrite N2Z.id. apply ascii_N_embedding.
Qed.

Lemma bitset_to_string_bits (byte : char) : Forall is_bit (bitset_to_string byte).
Proof.
  unfold bitset_to_string. apply Forall_forall. intros c Hc.
  apply in_map_iff in Hc. destruct Hc as [i [<- _]].
  destruct (N.testbit _ _); [now right|now left].
Qed.

Lemma putBytes_unpack (payload : str) :
  putBytes (flat_map bitset_to_string payload)
           (map (fun j => 8 * j)%nat (seq 0 (List.length payload))) = Some payload.
Proof.
  induction payload as [|byte payload IH]; [reflexivity|].
  cbn [flat_map List.length seq map putBytes].
  replace (substr (bitset_to_string byte ++ flat_map bitset_to_string payload) (8 * 0) 8)
    with (bitset_to_string byte) by reflexivity.
  rewrite bitset_of_to_string, int_to_char_of_ascii.
  rewrite <- seq_shift, map_map.
  erewrite map_ext with (g := fun j => (List.length (bitset_to_string byte) + 8 * j)%nat)
    by (intros; cbn; lia).
  rewrite <- (map_map (fun j => 8 * j)%nat
                      (fun i => List.length (bitset_to_string byte) + i)%nat).
  now rewrite putBytes_shift, IH.
Qed.

(** X16. Bytes and bit strings.  What [decompressFile] makes of the payload
    bytes and what [compressFile] makes of the padded bit string undo each
    other: every byte string is packed back from its bit string, and every
    string of '0' and '1' whose length is a multiple of 8 is packed into
    bytes whose bit string it is. *)
Theorem bytes_bits_inverse :
  (forall payload : str,
      writeBits (flat_map bitset_to_string payload) = Some payload) /\
  (forall encoded : str,
      Forall is_bit encoded -> (List.length encoded mod 8 = 0)%nat ->
      exists payload,
        writeBits encoded = Some payload /\
        flat_map bitset_to_string payload = encoded).
Proof.
  split.
  - intros payload. unfold writeBits.
    assert (Hlen : List.length (flat_map bitset_to_string payload)
                   = (8 * List.length payload)%nat).
    { induction payload as [|b payload IH]; [reflexivity|].
      cbn [flat_map]. rewrite length_app, IH. cbn. lia. }
    rewrite Hlen.
    replace ((8 * List.length payload + 7) / 8)%nat with (List.length payload).
    + apply putBytes_unpack.
    + apply Nat.div_unique with (r := 7%nat); lia.
  - intros encoded Hbits Hmod.
    destruct (writeBits_spec encoded Hbits Hmod) as (payload & Hw & _ & Hback).
    now exists payload.
Qed.

(** ** The table of a rearranged buffer *)

Lemma sorted_ext (m1 : CharMap.t Z) : forall m2,
  CharMap.sorted m1 -> CharMap.sorted m2 ->
  (forall k, CharMap.find k m1 = CharMap.find k m2) -> m1 = m2.
Proof.
  induction m1 as [|[k1 v1] m1 IH]; intros [|[k2 v2] m2] Hs1 Hs2 Hfind.
  - reflexivity.
  - specialize (Hfind k2). cbn in Hfind. rewrite char_eqb_refl in Hfind. discriminate.
  - specialize (Hfind k1). cbn in Hfind. rewrite char_eqb_refl in Hfind. discriminate.
  - assert (Hk : k1 = k2).
    { destruct (Z.lt_total (char_to_int k1) (char_to_int k2)) as [Hlt|[Heq|Hgt]].
      - specialize (Hfind k1).
        rewrite (CharMapFacts.sorted_head_find k1 k2 v2 m2 Hs2 Hlt) in Hfind.
        cbn in Hfind. rewrite char_eqb_refl in Hfind. discriminate.
      - now apply char_to_int_inj.
      - specialize (Hfind k2).
        rewrite (CharMapFacts.sorted_head_find k2 k1 v1 m1 Hs1 Hgt) in Hfind.
        cbn in Hfind. rewrite char_eqb_refl in Hfind. discriminate. }
    subst k2.
    assert (Hv : v1 = v2).
    { specialize (Hfind k1). cbn in Hfind. rewrite char_eqb_refl in Hfind. congruence. }
    subst v2. f_equal.
    inversion Hs1 as [|? ? ? Hall1 Hs1']; subst.
    inversion Hs2 as [|? ? ? Hall2 Hs2']; subst.
    apply IH; [assumption..|]. intros k.
    destruct (ascii_dec k k1) as [->|Hne].
    + assert (H1 : CharMap.find k1 m1 = None).
      { apply CharMapFacts.find_None_keys. intros Hin. apply in_map_iff in Hin.
        destruct Hin as [e [He Hin]]. rewrite Forall_forall in Hall1.
        specialize (Hall1 e Hin). subst. lia. }
      assert (H2 : CharMap.find k1 m2 = None).
      { apply CharMapFacts.find_None_keys. intros Hin. apply in_map_iff in Hin.
        destruct Hin as [e [He Hin]]. rewrite Forall_forall in Hall2.
        specialize (Hall2 e Hin). subst. lia. }
      congruence.
    + specialize (Hfind k). cbn in Hfind.
      apply char_eqb_neq in Hne. now rewrite Hne in Hfind.
Qed.

(** X17. The table depends on the histogram only.  Two buffers that are
    rearrangements of each other have the same frequency table, hence the
    same header, and, the tree being built from the table alone, the same
    tree and the same codes. *)
Theorem buildFrequencyTable_Permutation (content content' : str) :
  Permutation content content' ->
  buildFrequencyTable content = buildFrequencyTable content' /\
  writeHeader (buildFrequencyTable content) = writeHeader (buildFrequencyTable content').
Proof.
  intros Hp.
  assert (E : buildFrequencyTable content = buildFrequencyTable content').
  { destruct (buildFrequencyTable_counts content) as (Hs & _ & Hfind).
    destruct (buildFrequencyTable_counts content') as (Hs' & _ & Hfind').
    apply sorted_ext; [assumption..|]. intros k.
    rewrite Hfind, Hfind'. unfold occurrences.
    now rewrite (proj1 (Permutation_count_occ ascii_dec content content') Hp k). }
  now rewrite E.
Qed.

(** ** Named files and [main] *)

Lemma lookup_word (fs : OnFiles.fileSystem) (name : str) :
  is_word name -> OnFiles.lookup fs name = OnFiles.file_of fs name.
Proof. intros [Hne _]. destruct name; [contradiction|reflexivity]. Qed.

(** Writing under a name that leads to a writable file replaces what that
    file holds and nothing else. *)
Lemma write_out_word (fs : OnFiles.fileSystem) (name data : str) (f : nat) :
  is_word name -> OnFiles.file_of fs name = Some f -> OnFiles.writable fs f = true ->
  OnFiles.write_out fs name data =
  OnFiles.mkFS (OnFiles.file_of fs)
               (fun g => if (g =? f)%nat then Some data else OnFiles.held fs g)
               (OnFiles.readable fs) (OnFiles.writable fs) (OnFiles.read_fails fs).
Proof.
  intros Hw Hf Hwr. unfold OnFiles.write_out.
  now rewrite (lookup_word fs name Hw), Hf, Hwr.
Qed.

(** Whatever the name, writing leaves the names, the permissions and all
    files but one as they are. *)
Lemma write_out_frame (fs : OnFiles.fileSystem) (name data : str) :
  OnFiles.file_of (OnFiles.write_out fs name data) = OnFiles.file_of fs /\
  OnFiles.readable (OnFiles.write_out fs name data) = OnFiles.readable fs /\
  OnFiles.writable (OnFiles.write_out fs name data) = OnFiles.writable fs /\
  OnFiles.read_fails (OnFiles.write_out fs name data) = OnFiles.read_fails fs /\
  exists f, forall g, g <> f ->
    OnFiles.held (OnFiles.write_out fs name data) g = OnFiles.held fs g.
Proof.
  unfold OnFiles.write_out.
  destruct (OnFiles.lookup fs name) as [f|]; [|now repeat split; exists 0%nat].
  destruct (OnFiles.writable fs f); [|now repeat split; exists 0%nat].
  repeat split. exists f. intros g Hg. cbn [OnFiles.held].
  apply Nat.eqb_neq in Hg. now rewrite Hg.
Qed.

Lemma take_word_app (w : str) (c : char) (rest : str) :
  Forall (fun x => isspace x = false) w -> isspace c = true ->
  OnFiles.take_word (w ++ c :: rest) = (w, c :: rest).
Proof.
  intros Hw Hc. induction Hw as [|x w Hx Hw IH]; cbn [app OnFiles.take_word].
  - now rewrite Hc.
  - now rewrite Hx, IH.
Qed.

Lemma read_word_line (w rest : str) :
  is_word w ->
  OnFiles.read_word (Some ("010"%char :: w ++ "010"%char :: rest)) =
  (w, Some ("010"%char :: rest)).
Proof.
  intros [Hne Hw]. unfold OnFiles.read_word.
  change (skip_ws ("010"%char :: w ++ "010"%char :: rest))
    with (skip_ws (w ++ "010"%char :: rest)).
  destruct w as [|x w]; [contradiction|].
  inversion Hw as [|? ? Hx Hw']; subst.
  cbn [app skip_ws]. rewrite Hx.
  change (x :: w ++ "010"%char :: rest) with ((x :: w) ++ "010"%char :: rest).
  now rewrite (take_word_app (x :: w) "010"%char rest Hw eq_refl).
Qed.

Lemma filter_not_NUL_id (content : str) :
  ~ In NUL content -> filter not_NUL content = content.
Proof.
  induction content as [|c content IH]; intros H; [reflexivity|].
  cbn [filter]. unfold not_NUL at 1.
  destruct (char_eqb c NUL) eqn:E.
  - apply char_eqb_eq in E. subst. exfalso. apply H. now left.
  - cbn [negb]. f_equal. apply IH. intros Hin. apply H. now right.
Qed.

Lemma compressFile_message (Q : PriorityQueue) (content file : str) (m : message) :
  compressFile content = Saved file m -> m = CompressionSuccessful.
Proof.
  unfold compressFile. destruct content; [discriminate|].
  destruct (buildHuffmanTree _); [|discriminate].
  destruct (writeBits _); [|discriminate]. now intros [= _ <-].
Qed.

Lemma decompressFile_message (Q : PriorityQueue) (file out : str) (m : message) :
  decompressFile file = Saved out m -> m = DecompressionSuccessful.
Proof.
  unfold decompressFile, decodePayload.
  destruct (readHeader file) as [[freqTable payload]|]; [|discriminate].
  destruct (buildHuffmanTree _); [|discriminate].
  destruct (decodeLoop _ _ _ _ _); [|discriminate]. now intros [= _ <-].
Qed.

Section Sessions.

Context {Q : PriorityQueue}.

Lemma main_session (fs : OnFiles.fileSystem) (choice : Z) (inputFile outputFile : str) :
  INT_MIN <= choice <= INT_MAX -> choice <> 3 ->
  is_word inputFile -> is_word outputFile ->
  OnFiles.main fs (session choice inputFile outputFile) =
  if choice =? 1 then OnFiles.compressFile fs inputFile outputFile
  else if choice =? 2 then OnFiles.decompressFile fs inputFile outputFile
  else Some (fs, OnFiles.InvalidChoice).
Proof.
  intros Hr H3 Hi Ho. unfold OnFiles.main, OnFiles.dispatch, session. cbn [app].
  rewrite read_int_print_int by (assumption || reflexivity).
  destruct (Z.eqb_spec choice 3); [contradiction|].
  rewrite (read_word_line inputFile _ Hi), (read_word_line outputFile _ Ho).
  reflexivity.
Qed.

(** X12. A round trip through two runs of the program.  Let a name open
    for reading on a buffer with at least two different byte values, none
    0x00, of a length that fits an [int]; let a second name lead to a file
    that can be written and read, and a third name to a file that can be
    written.  Choosing 1 with the first and the second name,
    then 2 with the second and the third, both runs report success, the
    third file holds the buffer, and no file other than the second and the
    third has changed.  The three files need not differ, under the same or
    under different names: compressing or decompressing a file onto itself
    works, since the input is read in full and closed before the output is
    opened. *)
Theorem main_round_trip (fs : OnFiles.fileSystem) (content : str) (a b : char)
    (original compressed restored : str) (f g : nat) :
  is_word original -> is_word compressed -> is_word restored ->
  OnFiles.open_in fs original = OnFiles.Opened content ->
  OnFiles.file_of fs compressed = Some f ->
  OnFiles.writable fs f = true -> OnFiles.readable fs f = true ->
  OnFiles.read_fails fs f = false ->
  OnFiles.file_of fs restored = Some g -> OnFiles.writable fs g = true ->
  In a content -> In b content -> a <> b -> ~ In NUL content ->
  Z.of_nat (List.length content) <= INT_MAX ->
  exists fs1 fs2,
    OnFiles.main fs (session 1 original compressed) =
      Some (fs1, OnFiles.Told CompressionSuccessful) /\
    OnFiles.main fs1 (session 2 compressed restored) =
      Some (fs2, OnFiles.Told DecompressionSuccessful) /\
    OnFiles.held fs2 g = Some content /\
    forall h, h <> f -> h <> g -> OnFiles.held fs2 h = OnFiles.held fs h.
Proof.
  intros Ho Hc Hr Hfile Hf Hfw Hfr Hfe Hg Hgw Ha Hb Hab Hnul Hlen.
  destruct (decompress_compress content a b Ha Hb Hab Hlen) as (file & W & Hcomp & Hdec & _).
  rewrite (filter_not_NUL_id content Hnul) in Hdec.
  rewrite firstn_app, Nat.sub_diag, firstn_all in Hdec. simpl in Hdec.
  rewrite app_nil_r in Hdec.
  set (fs1 := OnFiles.write_out fs compressed file).
  assert (E1 : fs1 = OnFiles.mkFS (OnFiles.file_of fs)
                       (fun h => if (h =? f)%nat then Some file else OnFiles.held fs h)
                       (OnFiles.readable fs) (OnFiles.writable fs)
                       (OnFiles.read_fails fs))
    by now apply write_out_word.
  set (fs2 := OnFiles.write_out fs1 restored content).
  assert (E2 : fs2 = OnFiles.mkFS (OnFiles.file_of fs1)
                       (fun h => if (h =? g)%nat then Some content else OnFiles.held fs1 h)
                       (OnFiles.readable fs1) (OnFiles.writable fs1)
                       (OnFiles.read_fails fs1)).
  { apply write_out_word; [assumption|rewrite E1; assumption..]. }
  exists fs1, fs2. split; [|split; [|split]].
  - rewrite main_session by (assumption || discriminate || (unfold INT_MIN, INT_MAX; lia)).
    cbn [Z.eqb Pos.eqb]. unfold OnFiles.compressFile.
    now rewrite Hfile, Hcomp.
  - rewrite main_session by (assumption || discriminate || (unfold INT_MIN, INT_MAX; lia)).
    cbn [Z.eqb Pos.eqb]. unfold OnFiles.decompressFile, OnFiles.open_in.
    rewrite (lookup_word fs1 compressed Hc), E1.
    cbn [OnFiles.file_of OnFiles.readable OnFiles.held OnFiles.read_fails].
    rewrite Hf, Hfr, Hfe, Nat.eqb_refl, <- E1. now rewrite Hdec.
  - rewrite E2. cbn [OnFiles.held]. now rewrite Nat.eqb_refl.
  - intros h Hhf Hhg. rewrite E2, E1. cbn [OnFiles.held].
    apply Nat.eqb_neq in Hhf, Hhg. now rewrite Hhf, Hhg.
Qed.

Lemma dispatch_frame (fs fs' : OnFiles.fileSystem) (choice : Z) (s : option str)
    (r : OnFiles.report) :
  OnFiles.dispatch fs choice s = Some (fs', r) ->
  (r <> OnFiles.Told CompressionSuccessful ->
   r <> OnFiles.Told DecompressionSuccessful -> fs' = fs) /\
  exists name data, fs' = fs \/ fs' = OnFiles.write_out fs name data.
Proof.
  unfold OnFiles.dispatch.
  destruct (choice =? 3); [intros [= <- <-]; split; [reflexivity|exists [], []; now left]|].
  destruct (OnFiles.read_word s) as [inputFile s1].
  destruct (OnFiles.read_word s1) as [outputFile s2].
  destruct (choice =? 1); [|destruct (choice =? 2)].
  - unfold OnFiles.compressFile.
    destruct (OnFiles.open_in fs inputFile) as [| |content];
      [intros [= <- <-]; split; [reflexivity|exists [], []; now left]..|].
    destruct (compressFile content) as [m|file m|] eqn:E; [| |discriminate].
    + intros [= <- <-]. split; [reflexivity|exists [], []; now left].
    + apply compressFile_message in E. subst m. intros [= <- <-]. split.
      * intros H. contradiction.
      * exists outputFile, file. now right.
  - unfold OnFiles.decompressFile.
    destruct (OnFiles.open_in fs inputFile) as [| |file];
      [intros [= <- <-]; split; [reflexivity|exists [], []; now left]|discriminate|].
    destruct (decompressFile file) as [m|out m|] eqn:E; [| |discriminate].
    + intros [= <- <-]. split; [reflexivity|exists [], []; now left].
    + apply decompressFile_message in E. subst m. intros [= <- <-]. split.
      * intros _ H. contradiction.
      * exists outputFile, out. now right.
  - intros [= <- <-]. split; [reflexivity|exists [], []; now left].
Qed.

(** X13. What [main] leaves alone.  Whatever is typed and whatever the
    file system, a run that ends (without undefined behaviour) leaves the
    names and the permissions as they are, changes what at most one file
    holds, and changes nothing at all unless it reports that compression or
    decompression succeeded: not after "Exiting...", "Invalid choice!",
    "Cannot open input file!" or "File is empty!", and not when it is
    terminated on an input that cannot be read. *)
Theorem main_frame (fs fs' : OnFiles.fileSystem) (stdin : str) (r : OnFiles.report) :
  OnFiles.main fs stdin = Some (fs', r) ->
  OnFiles.file_of fs' = OnFiles.file_of fs /\
  OnFiles.readable fs' = OnFiles.readable fs /\
  OnFiles.writable fs' = OnFiles.writable fs /\
  OnFiles.read_fails fs' = OnFiles.read_fails fs /\
  (exists f, forall g, g <> f -> OnFiles.held fs' g = OnFiles.held fs g) /\
  (r <> OnFiles.Told CompressionSuccessful ->
   r <> OnFiles.Told DecompressionSuccessful -> fs' = fs).
Proof.
  intros Hrun.
  assert (Hd : exists choice s, OnFiles.dispatch fs choice s = Some (fs', r)).
  { unfold OnFiles.main in Hrun.
    destruct (read_int stdin) as [[choice s]|]; [now exists choice, (Some s)|].
    destruct (read_int_stored stdin) as [choice|]; [|discriminate].
    now exists choice, None. }
  destruct Hd as (choice & s & Hd).
  destruct (dispatch_frame fs fs' choice s r Hd) as [Hsame (name & data & [->| ->])].
  - repeat split; try assumption. now exists 0%nat.
  - destruct (write_out_frame fs name data) as (H1 & H2 & H3 & H4 & H5).
    repeat split; assumption.
Qed.

End Sessions.

(** ** The empty buffer *)

Section Empty.

Context {Q : PriorityQueue}.

(** C7. On the zero-length buffer [compressFile] reports "File is empty"
    and returns before the output file is opened: no artifact is written,
    with or without a table in it.  The error is raised for no other
    input: every non-empty buffer is compressed and saved. *)
Theorem compressFile_empty_input :
  compressFile [] = Failed FileIsEmpty /\
  (forall file m, compressFile [] <> Saved file m) /\
  (forall content, compressFile content = Failed FileIsEmpty <-> content = []).
Proof.
  split; [reflexivity|]. split; [discriminate|].
  intros content. split.
  - intros H. destruct content as [|c content]; [reflexivity|].
    destruct (compressFile_saved (c :: content)) as (? & ? & _ & _ & _ & _ & _ & E);
      [discriminate|].
    rewrite E in H. discriminate.
  - now intros ->.
Qed.

End Empty.

(** ** The procedures on concrete buffers

    Evaluated with [listQueue].  In each run below the nodes in the queue
    have pairwise different weights whenever [top()] is called, so the trees
    are the ones any conforming queue builds. *)

(** C1 on failing inputs.  Two buffers that do not survive the round trip.
    The one-byte buffer "A": the tree is a single leaf, its code is the empty
    string, the artifact has no payload and decodes to the empty buffer.
    The buffer 0x00 'A' 'A': the byte 0x00 gets no code, the payload holds
    only the two codes of 'A', and the decoder, told to produce three
    symbols, reads the third from the padding: "AA" followed by 0x00. *)
Theorem round_trip_failures :
  (@compressFile listQueue ["A"%char] = Saved (line "1" ++ line "65 1") CompressionSuccessful /\
   @decompressFile listQueue (line "1" ++ line "65 1") = Saved [] DecompressionSuccessful) /\
  (@compressFile listQueue [NUL; "A"%char; "A"%char] =
     Saved (line "2" ++ line "0 1" ++ line "65 2" ++ ["192"%char]) CompressionSuccessful /\
   @decompressFile listQueue (line "2" ++ line "0 1" ++ line "65 2" ++ ["192"%char]) =
     Saved ["A"%char; "A"%char; NUL] DecompressionSuccessful).
Proof. split_all; vm_compute; reflexivity. Qed.

(** C2 on a failing input.  For 1000 copies of 0x41 the tree is the single
    leaf, [generateHuffmanCodes] records the empty string as the code of 'A'
    (not a one-bit code), no payload byte is written, and decoding the
    artifact produces the empty buffer instead of the 1000 copies. *)
Theorem single_symbol_input_lost :
  let content := repeat "A"%char 1000 in
  @buildHuffmanTree listQueue (buildFrequencyTable content) = Some (newNode "A"%char 1000) /\
  generateHuffmanCodes (Some (newNode "A"%char 1000)) [] CharMap.empty = [("A"%char, [])] /\
  @compressFile listQueue content =
    Saved (line "1" ++ line "65 1000") CompressionSuccessful /\
  @decompressFile listQueue (line "1" ++ line "65 1000") = Saved [] DecompressionSuccessful.
Proof. split_all; vm_compute; reflexivity. Qed.

(** C6 on a failing input.  The artifact written for "AAA" declares three
    symbols in its header; the decoder emits none.  With one payload byte
    after the same header (the three one-bit codes the format foresees) the
    first bit moves the cursor to a null child of the single leaf. *)
Theorem decoder_emits_fewer_than_declared :
  @compressFile listQueue ["A"%char; "A"%char; "A"%char] =
    Saved (line "1" ++ line "65 3") CompressionSuccessful /\
  readHeader (line "1" ++ line "65 3") = Some ([("A"%char, 3)], []) /\
  totalChars [("A"%char, 3)] = 3 /\
  @decompressFile listQueue (line "1" ++ line "65 3") = Saved [] DecompressionSuccessful /\
  @decompressFile listQueue (line "1" ++ line "65 3" ++ [NUL]) = Undefined.
Proof. split_all; vm_compute; reflexivity. Qed.


(** ** Instances of the theorems above on concrete tables and buffers *)

Lemma buildHuffmanTree_decoder_safe_witness :
  (2 <= CharMap.size abc_table)%nat /\
  exists root,
    @buildHuffmanTree listQueue abc_table = Some root /\
    is_leaf root = false /\
    (forall n, subnode n root -> is_leaf n = false ->
               exists l r, left n = Some l /\ right n = Some r) /\
    (forall encoded decodedCount total,
        decodeLoop root root encoded decodedCount total <> None).
Proof.
  split; [simpl; lia|].
  apply (@buildHuffmanTree_decoder_safe listQueue abc_table). simpl. lia.
Defined.

Lemma generateHuffmanCodes_prefix_free_witness :
  (2 <= CharMap.size abc_table)%nat /\
  exists root,
    @buildHuffmanTree listQueue abc_table = Some root /\
    let huffmanCodes := generateHuffmanCodes (Some root) [] CharMap.empty in
    (forall c, In c (CharMap.keys abc_table) -> c <> NUL ->
               CharMap.find c huffmanCodes <> None) /\
    forall a b code_a code_b,
      a <> b ->
      CharMap.find a huffmanCodes = Some code_a ->
      CharMap.find b huffmanCodes = Some code_b ->
      ~ is_prefix code_a code_b.
Proof.
  split; [simpl; lia|].
  apply (@generateHuffmanCodes_prefix_free listQueue abc_table). simpl. lia.
Defined.

Lemma sentinel_byte_has_no_code_witness :
  exists root,
    @buildHuffmanTree listQueue (buildFrequencyTable [NUL; "A"%char; "A"%char]) = Some root /\
    is_leaf root = false /\
    (forall n, subnode n root -> is_leaf n = false -> data n = NUL) /\
    let huffmanCodes := generateHuffmanCodes (Some root) [] CharMap.empty in
    CharMap.find NUL huffmanCodes = None /\
    forall before after,
      [NUL; "A"%char; "A"%char] = before ++ NUL :: after ->
      encodeContent (before ++ [NUL]) huffmanCodes =
      encodeContent before huffmanCodes.
Proof.
  apply (@sentinel_byte_has_no_code listQueue [NUL; "A"%char; "A"%char] "A"%char).
  - simpl. now left.
  - simpl. right. now left.
  - discriminate.
Defined.

Lemma compressFile_bit_packing_witness :
  exists root payload padding,
    @buildHuffmanTree listQueue (buildFrequencyTable (list_ascii_of_string "ABB")) = Some root /\
    let huffmanCodes := generateHuffmanCodes (Some root) [] CharMap.empty in
    @compressFile listQueue (list_ascii_of_string "ABB") =
      Saved (writeHeader (buildFrequencyTable (list_ascii_of_string "ABB")) ++ payload)
            CompressionSuccessful /\
    (8 * List.length payload =
     8 * ((list_sum (map (fun c => List.length (codeOf huffmanCodes c))
                         (list_ascii_of_string "ABB")) + 7) / 8))%nat /\
    (padding < 8)%nat /\
    flat_map bitset_to_string payload =
      encodeContent (list_ascii_of_string "ABB") huffmanCodes ++ repeat c0 padding.
Proof.
  apply (@compressFile_bit_packing listQueue (list_ascii_of_string "ABB")).
  simpl. discriminate.
Defined.



Lemma round_trip_witness :
  exists file,
    @compressFile listQueue (list_ascii_of_string "abracadabra") =
      Saved file CompressionSuccessful /\
    @decompressFile listQueue file =
      Saved (list_ascii_of_string "abracadabra") DecompressionSuccessful.
Proof.
  apply (@round_trip listQueue (list_ascii_of_string "abracadabra") "a"%char "b"%char).
  - simpl. now left.
  - simpl. right. now left.
  - discriminate.
  - simpl. intros H. repeat (destruct H as [H|H]; [discriminate|]). exact H.
  - vm_compute. discriminate.
Defined.

Lemma decoder_stop_condition_witness :
  exists root,
    @buildHuffmanTree listQueue overflow_table = Some root /\
    let symbols := walkAll root root (flat_map bitset_to_string ["`"%char]) in
    @decodePayload listQueue overflow_table ["`"%char] =
      Saved (firstn (Z.to_nat (totalChars overflow_table)) symbols)
            DecompressionSuccessful /\
    (totalChars overflow_table <= Z.of_nat (List.length symbols) ->
     @decodePayload listQueue overflow_table (["`"%char] ++ ["z"%char]) =
     @decodePayload listQueue overflow_table ["`"%char]).
Proof.
  apply (@decoder_stop_condition listQueue overflow_table ["`"%char] ["z"%char]).
  - simpl. lia.
  - vm_compute. reflexivity.
Defined.

Lemma single_symbol_artifact_witness :
  @compressFile listQueue (repeat "A"%char 3) =
    Saved (writeHeader [("A"%char, 3)]) CompressionSuccessful /\
  @decompressFile listQueue (writeHeader [("A"%char, 3)]) =
    Saved [] DecompressionSuccessful /\
  forall byte payload,
    @decompressFile listQueue (writeHeader [("A"%char, 3)] ++ byte :: payload) = Undefined.
Proof.
  apply (@single_symbol_artifact listQueue "A"%char 2). vm_compute. discriminate.
Defined.

Lemma header_unambiguous_witness :
  readHeader (writeHeader [("A"%char, 1); ("B"%char, 20)] ++ list_ascii_of_string "7 7") =
    Some ([("A"%char, 1); ("B"%char, 20)], list_ascii_of_string "7 7") /\
  forall freqTable' payload',
    int_table freqTable' ->
    writeHeader [("A"%char, 1); ("B"%char, 20)] ++ list_ascii_of_string "7 7" =
    writeHeader freqTable' ++ payload' ->
    [("A"%char, 1); ("B"%char, 20)] = freqTable' /\ list_ascii_of_string "7 7" = payload'.
Proof.
  apply (header_unambiguous [("A"%char, 1); ("B"%char, 20)] (list_ascii_of_string "7 7")).
  split.
  - repeat constructor; simpl; lia.
  - repeat constructor; simpl; unfold INT_MIN, INT_MAX; lia.
Defined.

Lemma compressFile_header_faithful_witness :
  exists file payload,
    @compressFile listQueue [NUL; "A"%char; "A"%char] = Saved file CompressionSuccessful /\
    readHeader file = Some (buildFrequencyTable [NUL; "A"%char; "A"%char], payload) /\
    totalChars (buildFrequencyTable [NUL; "A"%char; "A"%char]) =
      Z.of_nat (List.length [NUL; "A"%char; "A"%char]) /\
    (forall c, In c (CharMap.keys (buildFrequencyTable [NUL; "A"%char; "A"%char])) <->
               In c [NUL; "A"%char; "A"%char]).
Proof.
  apply (@compressFile_header_faithful listQueue [NUL; "A"%char; "A"%char]).
  - discriminate.
  - vm_compute. discriminate.
Defined.

Lemma decompressFile_no_entries_witness :
  @decompressFile listQueue (line "0" ++ list_ascii_of_string "abc") = Undefined.
Proof.
  apply (@decompressFile_no_entries listQueue
           (line "0" ++ list_ascii_of_string "abc")
           ("010"%char :: list_ascii_of_string "abc") 0).
  - vm_compute. reflexivity.
  - lia.
Defined.

Lemma buildHuffmanTree_weights_witness :
  exists root,
    @buildHuffmanTree listQueue abc_table = Some root /\
    freq root = totalChars abc_table /\
    (forall n l r, subnode n root -> left n = Some l -> right n = Some r ->
                   freq n = int_add (freq l) (freq r)) /\
    (Forall (fun e => 0 <= snd e) abc_table -> sum_values abc_table <= INT_MAX ->
     freq root = sum_values abc_table /\
     forall n l r, subnode n root -> left n = Some l -> right n = Some r ->
                   freq n = freq l + freq r).
Proof.
  apply (@buildHuffmanTree_weights listQueue abc_table).
  - discriminate.
  - repeat constructor; simpl; unfold INT_MIN, INT_MAX; lia.
Defined.

Lemma generateHuffmanCodes_codes_witness :
  exists root code,
    @buildHuffmanTree listQueue abc_table = Some root /\
    CharMap.find "C"%char (generateHuffmanCodes (Some root) [] CharMap.empty) = Some code /\
    (1 <= List.length code <= CharMap.size abc_table - 1)%nat /\
    Forall is_bit code /\
    walkAll root root code = ["C"%char].
Proof.
  apply (@generateHuffmanCodes_codes listQueue abc_table "C"%char).
  - repeat constructor; simpl; lia.
  - simpl. lia.
  - simpl. right. right. now left.
  - discriminate.
Defined.

Lemma decodePayload_alphabet_witness :
  exists out,
    @decodePayload listQueue abc_table ["`"%char] = Saved out DecompressionSuccessful /\
    Forall (fun c => In c (CharMap.keys abc_table)) out /\
    (0 < totalChars abc_table -> Z.of_nat (List.length out) <= totalChars abc_table).
Proof.
  apply (@decodePayload_alphabet listQueue abc_table ["`"%char]). simpl. lia.
Defined.

Lemma round_trip_keeps_witness :
  exists file out tail,
    @compressFile listQueue [NUL; "A"%char; "A"%char] = Saved file CompressionSuccessful /\
    @decompressFile listQueue file = Saved out DecompressionSuccessful /\
    out = filter not_NUL [NUL; "A"%char; "A"%char] ++ tail /\
    (List.length tail <= 7)%nat /\
    (List.length out <= List.length [NUL; "A"%char; "A"%char])%nat.
Proof.
  apply (@round_trip_keeps listQueue [NUL; "A"%char; "A"%char] NUL "A"%char).
  - simpl. now left.
  - simpl. right. now left.
  - discriminate.
  - vm_compute. discriminate.
Defined.

Lemma main_round_trip_witness :
  exists fs1 fs2,
    @OnFiles.main listQueue (two_files (list_ascii_of_string "abracadabra"))
        (session 1 (list_ascii_of_string "in.txt") (list_ascii_of_string "./in.txt")) =
      Some (fs1, OnFiles.Told CompressionSuccessful) /\
    @OnFiles.main listQueue fs1
        (session 2 (list_ascii_of_string "./in.txt") (list_ascii_of_string "out.huf")) =
      Some (fs2, OnFiles.Told DecompressionSuccessful) /\
    OnFiles.held fs2 2%nat = Some (list_ascii_of_string "abracadabra") /\
    forall h, h <> 1%nat -> h <> 2%nat ->
              OnFiles.held fs2 h =
              OnFiles.held (two_files (list_ascii_of_string "abracadabra")) h.
Proof.
  assert (Hw : forall w, Forall (fun c => isspace c = false) (list_ascii_of_string w) ->
                         list_ascii_of_string w <> [] ->
                         is_word (list_ascii_of_string w)) by (intros w H1 H2; now split).
  apply (@main_round_trip listQueue (two_files (list_ascii_of_string "abracadabra"))
           (list_ascii_of_string "abracadabra") "a"%char "b"%char
           (list_ascii_of_string "in.txt") (list_ascii_of_string "./in.txt")
           (list_ascii_of_string "out.huf") 1%nat 2%nat);
    try (apply Hw; [repeat constructor|discriminate]);
    try reflexivity.
  - simpl. now left.
  - simpl. right. now left.
  - discriminate.
  - simpl. intros H. repeat (destruct H as [H|H]; [discriminate|]). exact H.
  - vm_compute. discriminate.
Defined.

Lemma main_frame_witness :
  OnFiles.file_of
    (OnFiles.write_out (two_files (list_ascii_of_string "abb")) (list_ascii_of_string "out.huf")
       (line "2" ++ line "97 1" ++ line "98 2" ++ ["`"%char])) =
  OnFiles.file_of (two_files (list_ascii_of_string "abb")) /\
  OnFiles.readable
    (OnFiles.write_out (two_files (list_ascii_of_string "abb")) (list_ascii_of_string "out.huf")
       (line "2" ++ line "97 1" ++ line "98 2" ++ ["`"%char])) =
  OnFiles.readable (two_files (list_ascii_of_string "abb")) /\
  OnFiles.writable
    (OnFiles.write_out (two_files (list_ascii_of_string "abb")) (list_ascii_of_string "out.huf")
       (line "2" ++ line "97 1" ++ line "98 2" ++ ["`"%char])) =
  OnFiles.writable (two_files (list_ascii_of_string "abb")) /\
  OnFiles.read_fails
    (OnFiles.write_out (two_files (list_ascii_of_string "abb")) (list_ascii_of_string "out.huf")
       (line "2" ++ line "97 1" ++ line "98 2" ++ ["`"%char])) =
  OnFiles.read_fails (two_files (list_ascii_of_string "abb")) /\
  (exists f, forall g, g <> f ->
     OnFiles.held
       (OnFiles.write_out (two_files (list_ascii_of_string "abb")) (list_ascii_of_string "out.huf")
          (line "2" ++ line "97 1" ++ line "98 2" ++ ["`"%char])) g =
     OnFiles.held (two_files (list_ascii_of_string "abb")) g) /\
  (OnFiles.Told CompressionSuccessful <> OnFiles.Told CompressionSuccessful ->
   OnFiles.Told CompressionSuccessful <> OnFiles.Told DecompressionSuccessful ->
   OnFiles.write_out (two_files (list_ascii_of_string "abb")) (list_ascii_of_string "out.huf")
     (line "2" ++ line "97 1" ++ line "98 2" ++ ["`"%char]) =
   two_files (list_ascii_of_string "abb")).
Proof.
  apply (@main_frame listQueue (two_files (list_ascii_of_string "abb"))
           (OnFiles.write_out (two_files (list_ascii_of_string "abb"))
              (list_ascii_of_string "out.huf")
              (line "2" ++ line "97 1" ++ line "98 2" ++ ["`"%char]))
           (session 1 (list_ascii_of_string "./in.txt") (list_ascii_of_string "out.huf"))
           (OnFiles.Told CompressionSuccessful)).
  vm_compute. reflexivity.
Defined.

Lemma rarest_symbols_siblings_witness :
  exists root a fa b fb others p,
    @buildHuffmanTree listQueue abc_table = Some root /\
    Permutation abc_table ((a, fa) :: (b, fb) :: others) /\
    fa <= fb /\ Forall (fun e => fb <= snd e) others /\
    let huffmanCodes := generateHuffmanCodes (Some root) [] CharMap.empty in
    (a <> NUL -> CharMap.find a huffmanCodes = Some (p ++ [c0])) /\
    (b <> NUL -> CharMap.find b huffmanCodes = Some (p ++ [c1])).
Proof.
  apply (@rarest_symbols_siblings listQueue abc_table).
  - repeat constructor; simpl; lia.
  - simpl. lia.
Defined.

Lemma compressFile_payload_size_witness :
  exists root payload,
    @buildHuffmanTree listQueue (buildFrequencyTable (list_ascii_of_string "abracadabra")) =
      Some root /\
    @compressFile listQueue (list_ascii_of_string "abracadabra") =
      Saved (writeHeader (buildFrequencyTable (list_ascii_of_string "abracadabra")) ++ payload)
            CompressionSuccessful /\
    Z.of_nat (List.length payload) =
      (table_sum (code_length (generateHuffmanCodes (Some root) [] CharMap.empty))
                    (buildFrequencyTable (list_ascii_of_string "abracadabra")) + 7) / 8.
Proof.
  apply (@compressFile_payload_size listQueue (list_ascii_of_string "abracadabra")).
  - discriminate.
  - vm_compute. discriminate.
Defined.

Lemma buildFrequencyTable_Permutation_witness :
  buildFrequencyTable (list_ascii_of_string "abc") =
    buildFrequencyTable (list_ascii_of_string "bca") /\
  writeHeader (buildFrequencyTable (list_ascii_of_string "abc")) =
    writeHeader (buildFrequencyTable (list_ascii_of_string "bca")).
Proof.
  apply (buildFrequencyTable_Permutation (list_ascii_of_string "abc")
           (list_ascii_of_string "bca")).
  apply (Permutation_cons_append (list_ascii_of_string "bc") "a"%char).
Defined.
